(** * nestify-backend: the tree service of [main.py] over its [tree_items] table

    A shallow embedding of the request handlers of [main.py] and of the
    table they work on, followed by the properties of the service.

    - The table is a list of rows in physical order.  A [SELECT] without
      [ORDER BY] returns rows in that order, a [SELECT ... ORDER BY id]
      sorts them by id, [INSERT] appends a row, [DELETE] drops rows.
    - The store behind [DATABASE_URL] is SQLite or PostgreSQL, and the
      two differ where the handlers can see it: in the id an insert
      assigns, in whether [database.execute] hands that id back, in
      where an updated row lies afterwards, and in the integers a query
      can be given.  The database carries its engine.
    - Every [database.execute] call is recorded in a journal together with
      the table it ran on, so that the order of the writes of a request
      can be stated.
    - [build_tree_recursive] and [delete_recursive] follow parent pointers
      of the table and need not terminate on a cyclic table: they take
      fuel, and [None] stands for a recursion that did not finish. *)

From Stdlib Require Import ZArith List Ascii String Bool Lia Sorted Permutation.
Import ListNotations.
Local Open Scope string_scope.
Local Open Scope list_scope.
Local Open Scope Z_scope.

Set Implicit Arguments.
Set Warnings "-register-all".

(** ** Data model *)

(** [class TreeNode(Base)]: one row of [tree_items]. *)
Module TreeNode.
Record t : Type := mk
  { id : Z;
    name : string;
    data : option string;
    parent_id : option Z }.
End TreeNode.

(** [class TreeItemCreate(BaseModel)]. *)
Module TreeItemCreate.
Inductive t : Type := mk
  { name : string;
    data : option string;
    children : option (list t) }.
End TreeItemCreate.

(** [class TreeItemUpdate(BaseModel)]. *)
Module TreeItemUpdate.
Record t : Type := mk { data : string }.
End TreeItemUpdate.

(** [class TreeItemResponse(BaseModel)]. *)
Module TreeItemResponse.
Inductive t : Type := mk
  { id : Z;
    name : string;
    data : option string;
    parent_id : option Z;
    children : option (list t) }.
End TreeItemResponse.

Abbreviation Row := TreeNode.t.
Abbreviation table := (list TreeNode.t).

(** The statements the handlers pass to [database.execute]. *)
Inductive statement : Type :=
| INSERT (name : string) (data : option string) (parent_id : option Z)
| DELETE_ALL
| UPDATE_DATA (data : string) (item_id : Z)
| DELETE_BY_ID (item_id : Z).

(** The engine behind [DATABASE_URL].  SQLite holds [tree_items] either
    as [main.py] creates it ([id INTEGER PRIMARY KEY], the table of the
    default configuration) or, when the table of [create_table.py] was
    there first and is not dropped, with [AUTOINCREMENT]. *)
Inductive backend : Type :=
| SQLite (autoincrement : bool)
| PostgreSQL.

(** The [database] object: its engine, the table in physical order, the
    next value of the id sequence (PostgreSQL's [SERIAL], SQLite's
    [sqlite_sequence] under [AUTOINCREMENT]; the plain SQLite table has
    none and leaves the field alone), and the journal of executed
    writes (oldest first), each with the table it was executed on. *)
Record database : Type := mkDatabase
  { engine : backend;
    tree_items : table;
    next_id : Z;
    journal : list (statement * table) }.

(** What a handler hands back: a value, a raised [HTTPException], or an
    exception nothing catches, which the framework answers with 500. *)
Inductive outcome (A : Type) : Type :=
| Returned (a : A)
| HTTPException (status_code : Z) (detail : string)
| InternalServerError.
Arguments Returned {A} a.
Arguments HTTPException {A} status_code detail.
Arguments InternalServerError {A}.

(** ** The store: queries *)

Definition opt_Z_eqb (a b : option Z) : bool :=
  match a, b with
  | Some x, Some y => x =? y
  | _, _ => false
  end.

Definition is_null (a : option Z) : bool :=
  match a with None => true | Some _ => false end.

(** [SELECT * FROM tree_items WHERE id = :node_id], [fetch_one], as
    [build_tree_recursive] runs it: on the id of a root row or of a
    child row.  The first row with that id, or Python's [None]. *)
Definition fetch_one_by_id (node_id : Z) (tbl : table) : option Row :=
  find (fun r => TreeNode.id r =? node_id) tbl.

(** The integers the driver can hand to a query in the place of an id:
    those of the column, 64 bits signed on SQLite, 32 on PostgreSQL
    ([Integer]).  The ids of rows are among them. *)
Definition bindable (e : backend) (x : Z) : bool :=
  match e with
  | SQLite _ => (- 2 ^ 63 <=? x) && (x <? 2 ^ 63)
  | PostgreSQL => (- 2 ^ 31 <=? x) && (x <? 2 ^ 31)
  end.

(** [SELECT id FROM tree_items WHERE id = :item_id], [fetch_one], the
    existence check of the two routes that take the id from the path:
    the id of the row found, Python's [None] when there is none, and no
    answer at all (the outer [None]) when there is none because the
    driver cannot bind the integer and raises. *)
Definition check_exists (item_id : Z) (db : database) : option (option Z) :=
  match fetch_one_by_id item_id (tree_items db) with
  | Some r => Some (Some (TreeNode.id r))
  | None => if bindable (engine db) item_id then Some None else None
  end.

(** [SELECT id FROM tree_items WHERE parent_id = :parent_id], [fetch_all]:
    no [ORDER BY], the ids come in the table's physical order. *)
Definition fetch_children (parent_id : Z) (tbl : table) : list Z :=
  map TreeNode.id
    (filter (fun r => opt_Z_eqb (TreeNode.parent_id r) (Some parent_id)) tbl).

(** [ORDER BY id]: a stable insertion sort on the id column. *)
Fixpoint insert_by_id (r : Row) (l : table) : table :=
  match l with
  | [] => [r]
  | x :: l' =>
    if TreeNode.id r <? TreeNode.id x then r :: x :: l'
    else x :: insert_by_id r l'
  end.

Fixpoint order_by_id (l : table) : table :=
  match l with
  | [] => []
  | r :: l' => insert_by_id r (order_by_id l')
  end.

(** [SELECT id FROM tree_items WHERE parent_id IS NULL ORDER BY id]. *)
Definition fetch_root_ids (tbl : table) : list Z :=
  map TreeNode.id
    (order_by_id (filter (fun r => is_null (TreeNode.parent_id r)) tbl)).

(** ** The store: writes *)

Definition record_write (st : statement) (db : database) : list (statement * table) :=
  journal db ++ [(st, tree_items db)].

(** The rowid SQLite gives a new row of a table without
    [AUTOINCREMENT]: one more than the largest in the table, 1 in an
    empty table. *)
Definition new_rowid (tbl : table) : Z :=
  match tbl with
  | [] => 1
  | r :: tbl' => fold_left Z.max (map TreeNode.id tbl') (TreeNode.id r) + 1
  end.

(** The id the next insert assigns.  Under [AUTOINCREMENT] it is also
    beyond every id the sequence has seen. *)
Definition assigned_id (db : database) : Z :=
  match engine db with
  | SQLite false => new_rowid (tree_items db)
  | SQLite true => Z.max (next_id db) (new_rowid (tree_items db))
  | PostgreSQL => next_id db
  end.

(** What [database.execute] returns for the [INSERT]: the id of the new
    row on SQLite ([lastrowid]); on PostgreSQL the statement has no
    [RETURNING] and the call returns [None]. *)
Definition returned (e : backend) (row_id : Z) : option Z :=
  match e with
  | SQLite _ => Some row_id
  | PostgreSQL => None
  end.

(** [INSERT INTO tree_items (name, data, parent_id) VALUES (...)]. *)
Definition execute_insert (name : string) (data : option string)
         (parent_id : option Z) (db : database) : option Z * database :=
  let row_id := assigned_id db in
  (returned (engine db) row_id,
   {| engine := engine db;
      tree_items := tree_items db ++ [TreeNode.mk row_id name data parent_id];
      next_id := match engine db with
                 | SQLite false => next_id db
                 | _ => row_id + 1
                 end;
      journal := record_write (INSERT name data parent_id) db |}).

(** [DELETE FROM tree_items]. *)
Definition execute_delete_all (db : database) : database :=
  {| engine := engine db;
     tree_items := [];
     next_id := next_id db;
     journal := record_write DELETE_ALL db |}.

(** [UPDATE tree_items SET data = :data WHERE id = :item_id]. *)
Definition set_data (data : string) (item_id : Z) (r : Row) : Row :=
  if TreeNode.id r =? item_id
  then TreeNode.mk (TreeNode.id r) (TreeNode.name r) (Some data) (TreeNode.parent_id r)
  else r.

(** The table after the update: SQLite rewrites the rows where they
    lie; PostgreSQL writes a new version of every row it updates, which
    a scan meets after the rows that were left alone. *)
Definition updated (e : backend) (data : string) (item_id : Z) (tbl : table)
  : table :=
  match e with
  | SQLite _ => map (set_data data item_id) tbl
  | PostgreSQL =>
      filter (fun r => negb (TreeNode.id r =? item_id)) tbl
      ++ map (set_data data item_id)
             (filter (fun r => TreeNode.id r =? item_id) tbl)
  end.

Definition execute_update_data (data : string) (item_id : Z) (db : database) : database :=
  {| engine := engine db;
     tree_items := updated (engine db) data item_id (tree_items db);
     next_id := next_id db;
     journal := record_write (UPDATE_DATA data item_id) db |}.

(** [DELETE FROM tree_items WHERE id = :item_id]. *)
Definition execute_delete (item_id : Z) (db : database) : database :=
  {| engine := engine db;
     tree_items := filter (fun r => negb (TreeNode.id r =? item_id)) (tree_items db);
     next_id := next_id db;
     journal := record_write (DELETE_BY_ID item_id) db |}.

(** ** The handlers *)

(** [insert_tree_recursive(item, parent_id)]: the node first, then each
    child with [parent_id=node_id], what the insert of the node
    returned.  [if item.children:] skips both [None] and the empty
    list. *)
Fixpoint insert_tree_recursive (item : TreeItemCreate.t) (parent_id : option Z)
       (db : database) {struct item} : option Z * database :=
  match item with
  | TreeItemCreate.mk name data children =>
    let (node_id, db1) := execute_insert name data parent_id db in
    let db2 :=
      match children with
      | Some (c :: cs) =>
          (fix for_child (l : list TreeItemCreate.t) (d : database) : database :=
             match l with
             | [] => d
             | child :: l' =>
                 for_child l' (snd (insert_tree_recursive child node_id d))
             end) (c :: cs) db1
      | _ => db1
      end in
    (node_id, db2)
  end.

(** The loop [for child_row in children_ids: child = ...; if child:
    children.append(child)], over a builder that may run out of fuel. *)
Fixpoint collect (A : Type) (build : Z -> option (option A)) (ids : list Z)
  : option (list A) :=
  match ids with
  | [] => Some []
  | i :: ids' =>
    match build i with
    | None => None
    | Some child =>
        match collect build ids' with
        | None => None
        | Some rest =>
            Some (match child with Some c => c :: rest | None => rest end)
        end
    end
  end.

(** [build_tree_recursive(node_id)].  The inner option is Python's [None]
    (no row with that id), the outer one the fuel. *)
Fixpoint build_tree_recursive (fuel : nat) (tbl : table) (node_id : Z)
  : option (option TreeItemResponse.t) :=
  match fuel with
  | O => None
  | S fuel' =>
    match fetch_one_by_id node_id tbl with
    | None => Some None
    | Some node =>
        let children_ids := fetch_children node_id tbl in
        match collect (build_tree_recursive fuel' tbl) children_ids with
        | None => None
        | Some children =>
            Some (Some (TreeItemResponse.mk
                          (TreeNode.id node) (TreeNode.name node)
                          (TreeNode.data node) (TreeNode.parent_id node)
                          (match children with
                           | [] => None
                           | _ :: _ => Some children
                           end)))
        end
    end
  end.

(** [GET /api/tree], [retrieve_tree]. *)
Definition retrieve_tree (fuel : nat) (tbl : table) : option (list TreeItemResponse.t) :=
  let root_nodes := fetch_root_ids tbl in
  match root_nodes with
  | [] => Some []
  | _ :: _ => collect (build_tree_recursive fuel tbl) root_nodes
  end.

(** [GET /api/tree/all], [retrieve_all_items]:
    [SELECT * FROM tree_items ORDER BY id]. *)
Definition retrieve_all_items (tbl : table) : table := order_by_id tbl.

(** [POST /api/tree], [create_tree_item]; the returned dict is
    [{"message": ..., "root_id": root_id}]. *)
Definition create_tree_item (item : TreeItemCreate.t) (db : database)
  : (string * option Z) * database :=
  let db1 := execute_delete_all db in
  let (root_id, db2) := insert_tree_recursive item None db1 in
  (("Tree replaced successfully", root_id), db2).

(** [PUT /api/tree/{item_id}/data], [update_tree_item_data]; the returned
    dict is [{"item_id": ..., "data": ..., "message": ...}]. *)
Definition update_tree_item_data (item_id : Z) (item : TreeItemUpdate.t)
         (db : database) : outcome (Z * string * string) * database :=
  match check_exists item_id db with
  | None => (InternalServerError, db)
  | Some None => (HTTPException 404 "Item not found", db)
  | Some (Some _) =>
    let db1 := execute_update_data (TreeItemUpdate.data item) item_id db in
    (Returned (item_id, TreeItemUpdate.data item, "Data updated successfully"), db1)
  end.

(** The loop [for child in children: await delete_recursive(child['id'])]. *)
Fixpoint for_each (visit : Z -> database -> option database) (ids : list Z)
       (db : database) : option database :=
  match ids with
  | [] => Some db
  | i :: ids' =>
    match visit i db with
    | None => None
    | Some db1 => for_each visit ids' db1
    end
  end.

(** The inner [delete_recursive(node_id)] of [delete_tree_item]: the
    children are fetched once, their subtrees deleted, then the node. *)
Fixpoint delete_recursive (fuel : nat) (node_id : Z) (db : database)
  : option database :=
  match fuel with
  | O => None
  | S fuel' =>
    let children := fetch_children node_id (tree_items db) in
    match for_each (delete_recursive fuel') children db with
    | None => None
    | Some db1 => Some (execute_delete node_id db1)
    end
  end.

(** [DELETE /api/tree/{item_id}], [delete_tree_item]; the returned dict is
    [{"item_id": ..., "message": ...}]. *)
Definition delete_tree_item (fuel : nat) (item_id : Z) (db : database)
  : option (outcome (Z * string) * database) :=
  match check_exists item_id db with
  | None => Some (InternalServerError, db)
  | Some None => Some (HTTPException 404 "Item not found", db)
  | Some (Some _) =>
    match delete_recursive fuel item_id db with
    | None => None
    | Some db1 =>
        Some (Returned (item_id, "Item and children deleted successfully"), db1)
    end
  end.

(** ** Request bodies and their validation *)

(** A request body as [json.loads] hands it to the validator; an object is
    kept as the list of its fields, read by the first binding of a key. *)
Inductive json : Type :=
| JNull
| JBool (b : bool)
| JNumber (literal : string)
| JString (s : string)
| JArray (items : list json)
| JObject (fields : list (string * json)).

Fixpoint get (key : string) (fields : list (string * json)) : option json :=
  match fields with
  | [] => None
  | (k, v) :: fields' => if String.eqb k key then Some v else get key fields'
  end.

(** A field declared [Optional[str] = None]: absent and [null] give
    [None]; the outer option is the validation error. *)
Definition validate_optional_str (field : option json) : option (option string) :=
  match field with
  | None => Some None
  | Some JNull => Some None
  | Some (JString s) => Some (Some s)
  | Some _ => None
  end.

(** A field declared [str], without a default: it must be there and be a
    string. *)
Definition validate_str (field : option json) : option string :=
  match field with
  | Some (JString s) => Some s
  | _ => None
  end.

(** The validator of [TreeItemCreate]: [name: str],
    [data: Optional[str] = None],
    [children: Optional[List['TreeItemCreate']] = None].  [None] is the
    validation error. *)
Fixpoint validate_TreeItemCreate (body : json) : option TreeItemCreate.t :=
  match body with
  | JObject fields =>
    let children :=
      (fix field_children (fs : list (string * json))
         : option (option (list TreeItemCreate.t)) :=
         match fs with
         | [] => Some None
         | (k, v) :: fs' =>
             if String.eqb k "children" then
               match v with
               | JNull => Some None
               | JArray items =>
                   option_map Some
                     ((fix each (l : list json) : option (list TreeItemCreate.t) :=
                         match l with
                         | [] => Some []
                         | x :: l' =>
                             match validate_TreeItemCreate x, each l' with
                             | Some c, Some cs => Some (c :: cs)
                             | _, _ => None
                             end
                         end) items)
               | _ => None
               end
             else field_children fs'
         end) fields in
    match validate_str (get "name" fields),
          validate_optional_str (get "data" fields),
          children with
    | Some name, Some data, Some children =>
        Some (TreeItemCreate.mk name data children)
    | _, _, _ => None
    end
  | _ => None
  end.

(** The validator of [TreeItemUpdate]: [data: str]. *)
Definition validate_TreeItemUpdate (body : json) : option TreeItemUpdate.t :=
  match body with
  | JObject fields =>
    match validate_str (get "data" fields) with
    | Some data => Some (TreeItemUpdate.mk data)
    | None => None
    end
  | _ => None
  end.

(** The routes with a body: the body is validated against the handler's
    parameter type, and a body that fails is answered with 422 without the
    handler being called. *)
Definition post_api_tree (body : json) (db : database)
  : outcome (string * option Z) * database :=
  match validate_TreeItemCreate body with
  | None => (HTTPException 422 "Unprocessable Entity", db)
  | Some item =>
    let (r, db1) := create_tree_item item db in (Returned r, db1)
  end.

Definition put_api_tree_data (item_id : Z) (body : json) (db : database)
  : outcome (Z * string * string) * database :=
  match validate_TreeItemUpdate body with
  | None => (HTTPException 422 "Unprocessable Entity", db)
  | Some item => update_tree_item_data item_id item db
  end.

(** ** Notions the properties are stated with *)

(** The children of an input node; an absent list and an empty one both
    mean no children. *)
Definition kids (item : TreeItemCreate.t) : list TreeItemCreate.t :=
  match TreeItemCreate.children item with
  | Some l => l
  | None => []
  end.

Definition response_kids (t : TreeItemResponse.t) : list TreeItemResponse.t :=
  match TreeItemResponse.children t with
  | Some l => l
  | None => []
  end.

(** Name, data and child shape of a tree, ids left out. *)
Inductive shape : Type :=
| Shape (name : string) (data : option string) (subtrees : list shape).

Fixpoint shape_of_item (item : TreeItemCreate.t) : shape :=
  match item with
  | TreeItemCreate.mk name data children =>
    Shape name data
          (match children with
           | Some l => map shape_of_item l
           | None => []
           end)
  end.

Fixpoint shape_of_response (t : TreeItemResponse.t) : shape :=
  match t with
  | TreeItemResponse.mk _ name data _ children =>
    Shape name data
          (match children with
           | Some l => map shape_of_response l
           | None => []
           end)
  end.

(** Every child carries the id of the node it hangs under. *)
Fixpoint linked (t : TreeItemResponse.t) : Prop :=
  match t with
  | TreeItemResponse.mk id _ _ _ children =>
    match children with
    | Some l =>
        (fix all (l : list TreeItemResponse.t) : Prop :=
           match l with
           | [] => True
           | c :: l' =>
               TreeItemResponse.parent_id c = Some id /\ linked c /\ all l'
           end) l
    | None => True
    end
  end.

(** [occurs_in t u]: [u] is [t] or a node below it. *)
Inductive occurs_in (t : TreeItemResponse.t) : TreeItemResponse.t -> Prop :=
| occurs_here : occurs_in t t
| occurs_below : forall c u,
    In c (response_kids t) -> occurs_in c u -> occurs_in t u.

(** Number of nodes and height of an input tree. *)
Fixpoint size (item : TreeItemCreate.t) : Z :=
  match item with
  | TreeItemCreate.mk _ _ children =>
    1 + match children with
        | Some l =>
            (fix sum (l : list TreeItemCreate.t) : Z :=
               match l with
               | [] => 0
               | c :: l' => size c + sum l'
               end) l
        | None => 0
        end
  end.

Fixpoint depth (item : TreeItemCreate.t) : nat :=
  match item with
  | TreeItemCreate.mk _ _ children =>
    S match children with
      | Some l =>
          (fix deepest (l : list TreeItemCreate.t) : nat :=
             match l with
             | [] => O
             | c :: l' => Nat.max (depth c) (deepest l')
             end) l
      | None => O
      end
  end.

(** What a replace puts into the table, on the engine [e]: the rows of
    the input in pre-order, numbered from [n], the root under [parent]
    and every other node under what the insert of its parent
    returned. *)
Fixpoint rows_under (e : backend) (item : TreeItemCreate.t) (parent : option Z)
         (n : Z) : table :=
  match item with
  | TreeItemCreate.mk name data children =>
    TreeNode.mk n name data parent ::
    match children with
    | Some l =>
        (fix below (l : list TreeItemCreate.t) (m : Z) : table :=
           match l with
           | [] => []
           | c :: l' => rows_under e c (returned e n) m ++ below l' (m + size c)
           end) l (n + 1)
    | None => []
    end
  end.

(** The rows of an input tree in pre-order, numbered from [n], the root
    under [parent] and every other node under the id of its parent:
    what the recursive insert appends where the id comes back. *)
Fixpoint rows_of (item : TreeItemCreate.t) (parent : option Z) (n : Z) : table :=
  match item with
  | TreeItemCreate.mk name data children =>
    TreeNode.mk n name data parent ::
    match children with
    | Some l =>
        (fix below (l : list TreeItemCreate.t) (m : Z) : table :=
           match l with
           | [] => []
           | c :: l' => rows_of c (Some n) m ++ below l' (m + size c)
           end) l (n + 1)
    | None => []
    end
  end.

(** The nested response for those rows. *)
Fixpoint response_of (item : TreeItemCreate.t) (parent : option Z) (n : Z)
  : TreeItemResponse.t :=
  match item with
  | TreeItemCreate.mk name data children =>
    TreeItemResponse.mk n name data parent
      match children with
      | Some (c :: cs) =>
          Some ((fix below (l : list TreeItemCreate.t) (m : Z)
                   : list TreeItemResponse.t :=
                   match l with
                   | [] => []
                   | c :: l' => response_of c (Some n) m :: below l' (m + size c)
                   end) (c :: cs) (n + 1))
      | _ => None
      end
  end.

(** [in_subtree tbl root x]: [x] is [root] or the id of a row reached from
    [root] along parent pointers of [tbl]. *)
Inductive in_subtree (tbl : table) (root : Z) : Z -> Prop :=
| subtree_root : in_subtree tbl root root
| subtree_child : forall p r,
    in_subtree tbl root p ->
    In r tbl ->
    TreeNode.parent_id r = Some p ->
    in_subtree tbl root (TreeNode.id r).

(** A row with that id exists. *)
Definition exists_in (tbl : table) (item_id : Z) : Prop :=
  exists r, In r tbl /\ TreeNode.id r = item_id.

(** The table's invariant: a row's parent was inserted before it, so it
    has the smaller id; and the sequence is ahead of every id handed out. *)
Definition parent_before_child (tbl : table) : Prop :=
  forall r p, In r tbl -> TreeNode.parent_id r = Some p -> p < TreeNode.id r.

Definition ids_below_next (db : database) : Prop :=
  forall r, In r (tree_items db) -> TreeNode.id r < next_id db.

(** The id a replace gives the root: the table is empty by then, so 1
    on the plain SQLite table and the value of the sequence elsewhere. *)
Definition first_id (db : database) : Z :=
  match engine db with
  | SQLite false => 1
  | SQLite true => Z.max (next_id db) 1
  | PostgreSQL => next_id db
  end.

(** The answer of a route for an id no row has. *)
Definition missing (A : Type) (e : backend) (item_id : Z) : outcome A :=
  if bindable e item_id
  then HTTPException 404 "Item not found"
  else InternalServerError.

(** The writes of a request: what it added to the journal. *)
Definition writes_since (before after : database) (evs : list (statement * table)) : Prop :=
  journal after = journal before ++ evs.

(** Ascending id order on rows. *)
Definition id_le (a b : Row) : Prop := TreeNode.id a <= TreeNode.id b.

(** The ids of the [DELETE ... WHERE id] statements of a journal, oldest
    first. *)
Fixpoint removed (evs : list (statement * table)) : list Z :=
  match evs with
  | [] => []
  | (DELETE_BY_ID x, _) :: evs' => x :: removed evs'
  | _ :: evs' => removed evs'
  end.

Definition mem (x : Z) (l : list Z) : bool := existsb (Z.eqb x) l.

Definition without (ids : list Z) (tbl : table) : table :=
  filter (fun r => negb (mem (TreeNode.id r) ids)) tbl.

(** [childless_deletes tbl evs tbl']: [evs] is a run of single-row deletes
    leading from [tbl] to [tbl'], and each of them hits an id that no row
    of the table references as its parent at that moment. *)
Inductive childless_deletes : table -> list (statement * table) -> table -> Prop :=
| deletes_done : forall tbl, childless_deletes tbl [] tbl
| deletes_step : forall tbl x evs tbl',
    (forall r, In r tbl -> TreeNode.parent_id r <> Some x) ->
    childless_deletes (filter (fun r => negb (TreeNode.id r =? x)) tbl) evs tbl' ->
    childless_deletes tbl ((DELETE_BY_ID x, tbl) :: evs) tbl'.

(** What deleting the subtrees under [roots] does to the database. *)
Definition subtrees_deleted (roots : list Z) (db db' : database) : Prop :=
  exists evs,
    writes_since db db' evs /\
    (next_id db' = next_id db /\ engine db' = engine db) /\
    childless_deletes (tree_items db) evs (tree_items db') /\
    (forall d, In d (removed evs) ->
             exists c, In c roots /\ in_subtree (tree_items db) c d) /\
    (forall c, In c roots -> In c (removed evs)) /\
    (forall r p, In r (tree_items db) -> TreeNode.parent_id r = Some p ->
               In p (removed evs) -> In (TreeNode.id r) (removed evs)).

(** The children field of a response node agrees with the table: absent
    when no row names the node as parent, a non-empty list otherwise. *)
Definition children_as_stored (tbl : table) (u : TreeItemResponse.t) : Prop :=
  TreeItemResponse.children u <> Some [] /\
  ((exists c l, TreeItemResponse.children u = Some (c :: l)) <->
   (exists r, In r tbl /\ TreeNode.parent_id r = Some (TreeItemResponse.id u))).

(** The list versions of the loops inside [size], [depth], [rows_of] and
    [response_of]. *)
Fixpoint size_all (l : list TreeItemCreate.t) : Z :=
  match l with
  | [] => 0
  | c :: l' => size c + size_all l'
  end.

Fixpoint depth_all (l : list TreeItemCreate.t) : nat :=
  match l with
  | [] => O
  | c :: l' => Nat.max (depth c) (depth_all l')
  end.

Fixpoint rows_under_all (e : backend) (l : list TreeItemCreate.t)
         (parent : option Z) (m : Z) : table :=
  match l with
  | [] => []
  | c :: l' => rows_under e c parent m ++ rows_under_all e l' parent (m + size c)
  end.

Fixpoint rows_of_all (l : list TreeItemCreate.t) (parent m : Z) : table :=
  match l with
  | [] => []
  | c :: l' => rows_of c (Some parent) m ++ rows_of_all l' parent (m + size c)
  end.

Fixpoint responses_of_all (l : list TreeItemCreate.t) (parent m : Z)
  : list TreeItemResponse.t :=
  match l with
  | [] => []
  | c :: l' => response_of c (Some parent) m :: responses_of_all l' parent (m + size c)
  end.

(** The ids the children of a node get when its first child gets [m]. *)
Fixpoint child_ids (l : list TreeItemCreate.t) (m : Z) : list Z :=
  match l with
  | [] => []
  | c :: l' => m :: child_ids l' (m + size c)
  end.

(** The loop of [insert_tree_recursive] over the children. *)
Fixpoint insert_all (l : list TreeItemCreate.t) (node_id : option Z)
         (db : database) : database :=
  match l with
  | [] => db
  | child :: l' =>
    insert_all l' node_id (snd (insert_tree_recursive child node_id db))
  end.

(** A row that has nothing to do with the ids [n .. n + sz - 1]: it has
    none of them, and its parent is none of them. *)
Definition foreign (n sz : Z) (r : Row) : Prop :=
  (TreeNode.id r < n \/ n + sz <= TreeNode.id r) /\
  (forall q, TreeNode.parent_id r = Some q -> q < n \/ n + sz <= q).

(** A row numbered in [k .. k + sz - 1] that hangs under [par] or under
    an earlier row of that range. *)
Definition below (par k sz : Z) (r : Row) : Prop :=
  k <= TreeNode.id r < k + sz /\
  exists q, TreeNode.parent_id r = Some q /\ (q = par \/ k <= q) /\ q < TreeNode.id r.

Definition is_insert (e : statement * table) : Prop :=
  match fst e with
  | INSERT _ _ _ => True
  | _ => False
  end.

(** The states the service can be in: the empty table it starts with, on
    any engine, and what the three writing routes make of a state. *)
Inductive reachable : database -> Prop :=
| reach_startup : forall e, reachable (mkDatabase e [] 1 [])
| reach_create : forall db item,
    reachable db -> reachable (snd (create_tree_item item db))
| reach_update : forall db item_id item,
    reachable db -> reachable (snd (update_tree_item_data item_id item db))
| reach_delete : forall db fuel item_id out db',
    reachable db -> delete_tree_item fuel item_id db = Some (out, db') ->
    reachable db'.

(** The list version of the loop of [validate_TreeItemCreate] over the
    items of a [children] array, and the reading of the field. *)
Fixpoint validate_all (items : list json) : option (list TreeItemCreate.t) :=
  match items with
  | [] => Some []
  | x :: items' =>
    match validate_TreeItemCreate x, validate_all items' with
    | Some c, Some cs => Some (c :: cs)
    | _, _ => None
    end
  end.

Definition validate_children (field : option json)
  : option (option (list TreeItemCreate.t)) :=
  match field with
  | None => Some None
  | Some JNull => Some None
  | Some (JArray items) => option_map Some (validate_all items)
  | Some _ => None
  end.

(** The field of a body, when the body is an object. *)
Definition field (key : string) (body : json) : option json :=
  match body with
  | JObject fields => get key fields
  | _ => None
  end.

(** [lacks_name body]: the body is an object whose [name] is not a string
    (absent, [null], or of another type), or one of the objects of its
    [children] array is such. *)
Inductive lacks_name : json -> Prop :=
| lacks_name_here : forall fields,
    (forall s, get "name" fields <> Some (JString s)) ->
    lacks_name (JObject fields)
| lacks_name_below : forall fields items c,
    get "children" fields = Some (JArray items) ->
    In c items ->
    lacks_name c ->
    lacks_name (JObject fields).

(** The names of an input tree in pre-order. *)
Fixpoint names (item : TreeItemCreate.t) : list string :=
  match item with
  | TreeItemCreate.mk name _ children =>
    name :: match children with
            | Some l => flat_map names l
            | None => []
            end
  end.

(** ** Sample data: the tree of the spec's scenario *)

Definition leaf (name : string) : TreeItemCreate.t :=
  TreeItemCreate.mk name None None.

Definition sample_item : TreeItemCreate.t :=
  TreeItemCreate.mk "root" None
    (Some [leaf "a"; TreeItemCreate.mk "b" None (Some [leaf "c"])]).

Definition empty_db : database := mkDatabase (SQLite false) [] 1 [].

Definition postgres_db : database := mkDatabase PostgreSQL [] 1 [].

Definition sample_db : database := snd (create_tree_item sample_item empty_db).

(** The same tree in the table of [create_table.py]. *)
Definition autoincrement_db : database :=
  snd (create_tree_item sample_item (mkDatabase (SQLite true) [] 1 [])).

(** The rows of [root] and its children [a] and [b] with the row of [b]
    physically ahead of the row of [a]. *)
Definition relocated_table : table :=
  [ TreeNode.mk 1 "root" None None;
    TreeNode.mk 3 "b" None (Some 1);
    TreeNode.mk 2 "a" None (Some 1) ].

(** ** Configuration read at import time *)

(** [os.getenv(name, default)], given the value of the variable if set. *)
Definition getenv (value : option string) (default : string) : string :=
  match value with
  | Some v => v
  | None => default
  end.

(** [s[n:]]. *)
Fixpoint skip (n : nat) (s : string) : string :=
  match n, s with
  | O, _ => s
  | S n', String _ s' => skip n' s'
  | S _, EmptyString => EmptyString
  end.

(** [s.replace(old, new, 1)]: the first occurrence of [old] gives way to
    [new], the rest of the string is kept. *)
Fixpoint replace_first (old new s : string) : string :=
  if prefix old s then (new ++ skip (String.length old) s)%string
  else match s with
       | EmptyString => EmptyString
       | String c s' => String c (replace_first old new s')
       end.

(** [DATABASE_URL], after the fix of Render's [postgres://]. *)
Definition DATABASE_URL (env_value : option string) : string :=
  let url := getenv env_value "sqlite:///./test.db" in
  if prefix "postgres://" url
  then replace_first "postgres://" "postgresql://" url
  else url.

(** [s.split(sep)] for a separator of one character. *)
Fixpoint split (sep : Ascii.ascii) (s : string) : list string :=
  match s with
  | EmptyString => [EmptyString]
  | String c s' =>
      if Ascii.eqb c sep then EmptyString :: split sep s'
      else match split sep s' with
           | part :: parts => String c part :: parts
           | [] => [String c EmptyString]
           end
  end.

(** [ALLOWED_ORIGINS]. *)
Definition ALLOWED_ORIGINS (env_value : option string) : list string :=
  split ","%char (getenv env_value "*").

(** The character occurs in the string. *)
Fixpoint occurs (c : Ascii.ascii) (s : string) : Prop :=
  match s with
  | EmptyString => False
  | String a s' => a = c \/ occurs c s'
  end.

Fixpoint count_char (c : Ascii.ascii) (s : string) : nat :=
  match s with
  | EmptyString => O
  | String a s' => (if Ascii.eqb a c then 1 else 0) + count_char c s'
  end.

(** ** Further notions *)

(** Every parent id is the id of a row of the table. *)
Definition parents_exist (tbl : table) : Prop :=
  forall r p, In r tbl -> TreeNode.parent_id r = Some p -> exists_in tbl p.

(** The response node carries the fields of the row. *)
Definition shows (u : TreeItemResponse.t) (r : Row) : Prop :=
  TreeItemResponse.id u = TreeNode.id r /\
  TreeItemResponse.name u = TreeNode.name r /\
  TreeItemResponse.data u = TreeNode.data r /\
  TreeItemResponse.parent_id u = TreeNode.parent_id r.

(** [k] consecutive ids from [n] on. *)
Fixpoint ids_from (n : Z) (k : nat) : list Z :=
  match k with
  | O => []
  | S k' => n :: ids_from (n + 1) k'
  end.

Definition id_lt (a b : Row) : Prop := TreeNode.id a < TreeNode.id b.

(** A table of two rows with a row that names itself as its parent. *)
Definition self_parent_table : table :=
  [ TreeNode.mk 1 "root" None None;
    TreeNode.mk 2 "loop" None (Some 2) ].

(** A response tree with the data of the nodes of one id replaced. *)
Fixpoint with_data (data : string) (item_id : Z) (t : TreeItemResponse.t)
  : TreeItemResponse.t :=
  match t with
  | TreeItemResponse.mk id name d parent children =>
      TreeItemResponse.mk id name
        (if id =? item_id then Some data else d)
        parent
        (match children with
         | Some l => Some (map (with_data data item_id) l)
         | None => None
         end)
  end.

(** ** Basic facts about the queries *)

Section Queries.

Lemma fetch_one_by_id_some (x : Z) (tbl : table) (r : Row) :
  fetch_one_by_id x tbl = Some r -> In r tbl /\ TreeNode.id r = x.
Proof.
  unfold fetch_one_by_id. intros H.
  apply find_some in H. destruct H as [Hin Heq].
  split; [assumption | now apply Z.eqb_eq].
Qed.

Lemma fetch_one_by_id_none (x : Z) (tbl : table) :
  fetch_one_by_id x tbl = None <-> ~ exists_in tbl x.
Proof.
  unfold fetch_one_by_id, exists_in. split.
  - intros H [r [Hin Heq]].
    pose proof (find_none _ _ H r Hin) as Hf. simpl in Hf.
    apply Z.eqb_neq in Hf. contradiction.
  - intros H. destruct (find _ tbl) as [r|] eqn:E; [|reflexivity].
    exfalso. apply H. apply find_some in E. destruct E as [Hin Heq].
    exists r. split; [assumption | now apply Z.eqb_eq].
Qed.

Lemma fetch_one_by_id_found (x : Z) (tbl : table) :
  exists_in tbl x -> exists r, fetch_one_by_id x tbl = Some r.
Proof.
  intros H. destruct (fetch_one_by_id x tbl) as [r|] eqn:E.
  - now exists r.
  - apply fetch_one_by_id_none in E. contradiction.
Qed.

Lemma opt_Z_eqb_eq (a : option Z) (p : Z) :
  opt_Z_eqb a (Some p) = true <-> a = Some p.
Proof.
  destruct a as [q|]; simpl.
  - rewrite Z.eqb_eq. split; intros H; [now subst | now inversion H].
  - split; discriminate.
Qed.

Lemma in_fetch_children (p x : Z) (tbl : table) :
  In x (fetch_children p tbl) <->
  exists r, In r tbl /\ TreeNode.parent_id r = Some p /\ TreeNode.id r = x.
Proof.
  unfold fetch_children. rewrite in_map_iff. split.
  - intros [r [Hid Hin]]. apply filter_In in Hin. destruct Hin as [Hin Hp].
    apply opt_Z_eqb_eq in Hp. now exists r.
  - intros [r [Hin [Hp Hid]]]. exists r. split; [assumption|].
    apply filter_In. split; [assumption | now apply opt_Z_eqb_eq].
Qed.

Lemma fetch_children_app (p : Z) (l1 l2 : table) :
  fetch_children p (l1 ++ l2) = fetch_children p l1 ++ fetch_children p l2.
Proof. unfold fetch_children. now rewrite filter_app, map_app. Qed.

(** [ORDER BY id] keeps the rows and puts them in ascending id order. *)
Lemma insert_by_id_perm (r : Row) (l : table) :
  Permutation (r :: l) (insert_by_id r l).
Proof.
  induction l as [|x l IH]; simpl.
  - apply Permutation_refl.
  - destruct (TreeNode.id r <? TreeNode.id x).
    + apply Permutation_refl.
    + eapply Permutation_trans; [apply perm_swap|].
      now apply perm_skip.
Qed.

Lemma order_by_id_perm (l : table) : Permutation l (order_by_id l).
Proof.
  induction l as [|r l IH]; simpl.
  - apply perm_nil.
  - eapply Permutation_trans; [|apply insert_by_id_perm].
    now apply perm_skip.
Qed.

Lemma in_order_by_id (r : Row) (l : table) : In r (order_by_id l) <-> In r l.
Proof.
  split; intros H.
  - eapply Permutation_in; [apply Permutation_sym, order_by_id_perm | exact H].
  - eapply Permutation_in; [apply order_by_id_perm | exact H].
Qed.

Lemma insert_by_id_sorted (r : Row) (l : table) :
  Sorted id_le l -> Sorted id_le (insert_by_id r l).
Proof.
  induction l as [|x l IH]; simpl; intros Hs.
  - repeat constructor.
  - destruct (TreeNode.id r <? TreeNode.id x) eqn:E.
    + constructor; [assumption|]. constructor. unfold id_le.
      apply Z.ltb_lt in E. lia.
    + apply Z.ltb_ge in E. inversion Hs as [|? ? Hs' Hhd]; subst.
      constructor; [now apply IH|].
      destruct l as [|y l]; simpl.
      * constructor. exact E.
      * destruct (TreeNode.id r <? TreeNode.id y).
        -- constructor. exact E.
        -- inversion Hhd; subst. now constructor.
Qed.

Lemma order_by_id_sorted (l : table) : Sorted id_le (order_by_id l).
Proof.
  induction l as [|r l IH]; simpl.
  - constructor.
  - now apply insert_by_id_sorted.
Qed.

(** The root query is in ascending id order whatever the physical order. *)
Lemma fetch_root_ids_sorted (tbl : table) : Sorted Z.le (fetch_root_ids tbl).
Proof.
  unfold fetch_root_ids.
  generalize (order_by_id_sorted
                (filter (fun r => is_null (TreeNode.parent_id r)) tbl)).
  generalize (order_by_id (filter (fun r => is_null (TreeNode.parent_id r)) tbl)).
  intros l Hs. induction Hs as [|x l Hs IH Hhd]; simpl.
  - constructor.
  - constructor; [assumption|].
    destruct Hhd; simpl; constructor. assumption.
Qed.

Lemma in_fetch_root_ids (x : Z) (tbl : table) :
  In x (fetch_root_ids tbl) <->
  exists r, In r tbl /\ TreeNode.parent_id r = None /\ TreeNode.id r = x.
Proof.
  unfold fetch_root_ids. rewrite in_map_iff. split.
  - intros [r [Hid Hin]]. apply in_order_by_id, filter_In in Hin.
    destruct Hin as [Hin Hp]. exists r. repeat split; try assumption.
    destruct (TreeNode.parent_id r); [discriminate | reflexivity].
  - intros [r [Hin [Hp Hid]]]. exists r. split; [assumption|].
    apply in_order_by_id, filter_In. split; [assumption|].
    now rewrite Hp.
Qed.

End Queries.

(** ** The recursive delete *)

Section Delete.

Lemma mem_In (x : Z) (l : list Z) : mem x l = true <-> In x l.
Proof.
  unfold mem. rewrite existsb_exists. split.
  - intros [y [Hin Heq]]. apply Z.eqb_eq in Heq. now subst.
  - intros Hin. exists x. split; [assumption | apply Z.eqb_refl].
Qed.

Lemma in_without (r : Row) (ids : list Z) (tbl : table) :
  In r (without ids tbl) <-> In r tbl /\ ~ In (TreeNode.id r) ids.
Proof.
  unfold without. rewrite filter_In. split; intros [Hin H]; split; try assumption.
  - intros Hm. apply mem_In in Hm. rewrite Hm in H. discriminate.
  - destruct (mem (TreeNode.id r) ids) eqn:E; [|reflexivity].
    apply mem_In in E. contradiction.
Qed.

Lemma without_nil (tbl : table) : without [] tbl = tbl.
Proof.
  unfold without. induction tbl as [|r tbl IH]; [reflexivity|].
  cbn [filter]. rewrite IH. reflexivity.
Qed.

Lemma without_cons (x : Z) (ids : list Z) (tbl : table) :
  without (x :: ids) tbl =
  without ids (filter (fun r => negb (TreeNode.id r =? x)) tbl).
Proof.
  unfold without. induction tbl as [|r tbl IH]; [reflexivity|].
  cbn [filter]. rewrite IH. unfold mem. cbn [existsb].
  destruct (TreeNode.id r =? x); reflexivity.
Qed.

Lemma removed_app (e1 e2 : list (statement * table)) :
  removed (e1 ++ e2) = removed e1 ++ removed e2.
Proof.
  induction e1 as [|[st t] e1 IH]; simpl; [reflexivity|].
  destruct st; simpl; now rewrite IH.
Qed.

(** A run of deletes leaves the rows whose id it did not name. *)
Lemma childless_deletes_result (tbl tbl' : table) evs :
  childless_deletes tbl evs tbl' -> tbl' = without (removed evs) tbl.
Proof.
  induction 1 as [tbl | tbl x evs tbl' Hfree Hrun IH]; simpl.
  - now rewrite without_nil.
  - now rewrite without_cons.
Qed.

Lemma childless_deletes_app (a b c : table) e1 e2 :
  childless_deletes a e1 b -> childless_deletes b e2 c ->
  childless_deletes a (e1 ++ e2) c.
Proof.
  induction 1; simpl; intros H2; [assumption|].
  constructor; auto.
Qed.

(** In a run, the table a delete works on has lost the ids deleted
    before it. *)
Lemma childless_deletes_split (tbl tbl' : table) e1 x t e2 :
  childless_deletes tbl (e1 ++ (DELETE_BY_ID x, t) :: e2) tbl' ->
  t = without (removed e1) tbl /\
  (forall r, In r t -> TreeNode.parent_id r <> Some x).
Proof.
  revert tbl. induction e1 as [|e e1 IH]; simpl; intros tbl Hrun.
  - inversion Hrun; subst. split; [|assumption].
    now rewrite without_nil.
  - inversion Hrun; subst. simpl. rewrite without_cons. now apply IH.
Qed.

Lemma in_subtree_incl (small big : table) (root x : Z) :
  incl small big -> in_subtree small root x -> in_subtree big root x.
Proof.
  intros Hincl H. induction H as [|p r Hp IH Hin Hpar].
  - constructor.
  - eapply subtree_child; eauto.
Qed.

Lemma in_subtree_trans (tbl : table) (a b c : Z) :
  in_subtree tbl a b -> in_subtree tbl b c -> in_subtree tbl a c.
Proof.
  intros Hab Hbc. induction Hbc as [|p r Hp IH Hin Hpar].
  - assumption.
  - eapply subtree_child; eauto.
Qed.

Lemma without_incl (ids : list Z) (tbl : table) : incl (without ids tbl) tbl.
Proof. intros r Hr. now apply in_without in Hr. Qed.

Lemma subtrees_deleted_incl (roots : list Z) (db db' : database) :
  subtrees_deleted roots db db' -> incl (tree_items db') (tree_items db).
Proof.
  intros [evs [_ [_ [Hrun _]]]].
  rewrite (childless_deletes_result Hrun). apply without_incl.
Qed.

(** The loop over the children, given what one visit does. *)
Lemma for_each_deletes (visit : Z -> database -> option database) :
  (forall c db db1, visit c db = Some db1 -> subtrees_deleted [c] db db1) ->
  forall cs db db',
    for_each visit cs db = Some db' -> subtrees_deleted cs db db'.
Proof.
  intros Hvisit. induction cs as [|c cs IH]; simpl; intros db db' H.
  - inversion H; subst. exists []. unfold writes_since.
    rewrite app_nil_r. repeat split; try constructor; simpl; intros; contradiction.
  - destruct (visit c db) as [db1|] eqn:E; [|discriminate].
    apply Hvisit in E. apply IH in H.
    pose proof (subtrees_deleted_incl E) as Hincl.
    destruct E as [e1 [Hj1 [Hn1 [Hrun1 [Hsound1 [Hroot1 Hclosed1]]]]]].
    destruct H as [e2 [Hj2 [Hn2 [Hrun2 [Hsound2 [Hroot2 Hclosed2]]]]]].
    exists (e1 ++ e2). unfold writes_since in *.
    split; [rewrite Hj2, Hj1; now rewrite app_assoc|].
    split; [destruct Hn1, Hn2; split; congruence|].
    split; [eapply childless_deletes_app; eauto|].
    rewrite removed_app.
    split; [|split].
    + intros d Hd. apply in_app_or in Hd. destruct Hd as [Hd|Hd].
      * destruct (Hsound1 d Hd) as [c' [[Hc'|[]] Hsub]]; subst.
        exists c'. split; [now left | assumption].
      * destruct (Hsound2 d Hd) as [c' [Hc' Hsub]].
        exists c'. split; [now right|].
        eapply in_subtree_incl; eauto.
    + intros c' [Hc'|Hc']; apply in_or_app.
      * left. apply Hroot1. now left.
      * right. now apply Hroot2.
    + intros r p Hin Hpar Hp. apply in_or_app.
      apply in_app_or in Hp. destruct Hp as [Hp|Hp].
      * left. eapply Hclosed1; eauto.
      * destruct (in_dec Z.eq_dec (TreeNode.id r) (removed e1)) as [Hr|Hr];
          [now left | right].
        eapply Hclosed2; eauto.
        rewrite (childless_deletes_result Hrun1). apply in_without. auto.
Qed.

(** [delete_recursive], whenever it finishes, has deleted the subtree
    of its node, children before parents. *)
Lemma delete_recursive_deletes (fuel : nat) :
  forall x db db',
    delete_recursive fuel x db = Some db' -> subtrees_deleted [x] db db'.
Proof.
  induction fuel as [|fuel IH]; simpl; intros x db db' H; [discriminate|].
  destruct (for_each _ _ db) as [db1|] eqn:E; [|discriminate].
  inversion H; subst; clear H.
  apply (for_each_deletes _ IH) in E.
  destruct E as [e1 [Hj1 [Hn1 [Hrun1 [Hsound1 [Hroot1 Hclosed1]]]]]].
  pose proof (childless_deletes_result Hrun1) as Htbl1.
  exists (e1 ++ [(DELETE_BY_ID x, tree_items db1)]).
  unfold writes_since in *. simpl.
  split; [unfold record_write; rewrite Hj1; now rewrite app_assoc|].
  split; [assumption|].
  split.
  { eapply childless_deletes_app; [eassumption|].
    constructor; [|constructor].
    intros r Hin Hpar. rewrite Htbl1 in Hin. apply in_without in Hin.
    destruct Hin as [Hin Hnot]. apply Hnot, Hroot1.
    apply in_fetch_children. now exists r. }
  rewrite removed_app. simpl.
  split; [|split].
  - intros d Hd. exists x. split; [now left|].
    apply in_app_or in Hd. destruct Hd as [Hd|[Hd|[]]].
    + destruct (Hsound1 d Hd) as [c [Hc Hsub]].
      apply in_fetch_children in Hc. destruct Hc as [r [Hin [Hpar Hid]]].
      eapply in_subtree_trans; [|exact Hsub].
      subst c. eapply subtree_child; eauto. constructor.
    + subst. constructor.
  - intros c [Hc|[]]. subst. apply in_or_app. right. now left.
  - intros r p Hin Hpar Hp. apply in_or_app. left.
    apply in_app_or in Hp. destruct Hp as [Hp|[Hp|[]]].
    + eapply Hclosed1; eauto.
    + subst p. apply Hroot1. apply in_fetch_children. now exists r.
Qed.

(** The deleted ids are exactly the subtree. *)
Lemma subtrees_deleted_rows (x : Z) (db db' : database) :
  subtrees_deleted [x] db db' ->
  forall r, In r (tree_items db') <->
            In r (tree_items db) /\ ~ in_subtree (tree_items db) x (TreeNode.id r).
Proof.
  intros [evs [Hj [Hn [Hrun [Hsound [Hroot Hclosed]]]]]] r.
  rewrite (childless_deletes_result Hrun), in_without.
  assert (Hall : forall d, in_subtree (tree_items db) x d -> In d (removed evs)).
  { intros d Hd. induction Hd as [|p r' Hp IH Hin Hpar].
    - apply Hroot. now left.
    - eapply Hclosed; eauto. }
  split; intros [Hin Hnot]; split; try assumption.
  - intros Hsub. apply Hnot. now apply Hall.
  - intros Hd. apply Hnot. destruct (Hsound _ Hd) as [c [[Hc|[]] Hsub]].
    now subst.
Qed.

(** On a table where parents precede children the recursion finishes. *)
Lemma for_each_total (visit : Z -> database -> option database)
      (good : database -> Prop) (cs : list Z) :
  (forall c db, In c cs -> good db ->
                exists db1, visit c db = Some db1 /\ good db1) ->
  forall db, good db -> exists db', for_each visit cs db = Some db' /\ good db'.
Proof.
  induction cs as [|c cs IH]; simpl; intros Hvisit db Hgood.
  - now exists db.
  - destruct (Hvisit c db (or_introl eq_refl) Hgood) as [db1 [E Hgood1]].
    rewrite E. apply IH; [|assumption].
    intros c' db0 Hc'. apply Hvisit. now right.
Qed.

Lemma delete_recursive_total (M : Z) (fuel : nat) :
  forall x db,
    parent_before_child (tree_items db) ->
    (forall r, In r (tree_items db) -> TreeNode.id r <= M) ->
    Z.max 0 (M - x) < Z.of_nat fuel ->
    exists db', delete_recursive fuel x db = Some db' /\
                incl (tree_items db') (tree_items db).
Proof.
  induction fuel as [|fuel IH]; intros x db Hpbc HM Hfuel; [lia|].
  simpl.
  set (good := fun d : database => incl (tree_items d) (tree_items db)).
  destruct (@for_each_total (delete_recursive fuel) good
              (fetch_children x (tree_items db))) with (db := db)
    as [db1 [E Hgood1]].
  - intros c d Hc Hd. unfold good in *.
    apply in_fetch_children in Hc. destruct Hc as [r [Hin [Hpar Hid]]].
    pose proof (Hpbc r x Hin Hpar) as Hlt. pose proof (HM r Hin) as Hle.
    destruct (IH c d) as [d1 [E1 Hincl1]].
    + intros r' p' Hin'. apply Hpbc. now apply Hd.
    + intros r' Hin'. apply HM. now apply Hd.
    + lia.
    + exists d1. split; [assumption|].
      intros r' Hr'. apply Hd. now apply Hincl1.
  - unfold good. apply incl_refl.
  - rewrite E. eexists. split; [reflexivity|].
    simpl. intros r Hr. apply filter_In in Hr. apply Hgood1. tauto.
Qed.

Lemma ids_bounded (tbl : table) : exists M, forall r, In r tbl -> TreeNode.id r <= M.
Proof.
  induction tbl as [|r tbl [M HM]].
  - exists 0. intros r [].
  - exists (Z.max M (TreeNode.id r)). intros r' [Hr'|Hr'].
    + subst. lia.
    + specialize (HM r' Hr'). lia.
Qed.

End Delete.

(** ** The recursive insert *)

Section Insert.

Lemma item_induction (P : TreeItemCreate.t -> Prop) :
  (forall item, Forall P (kids item) -> P item) ->
  forall item, P item.
Proof.
  intros step.
  exact (fix go (item : TreeItemCreate.t) : P item :=
           match item with
           | TreeItemCreate.mk name data children =>
               step (TreeItemCreate.mk name data children)
                    (match children as ch
                           return Forall P (kids (TreeItemCreate.mk name data ch))
                     with
                     | Some l =>
                         (fix all (l : list TreeItemCreate.t) : Forall P l :=
                            match l with
                            | [] => Forall_nil P
                            | c :: l' => Forall_cons c (go c) (all l')
                            end) l
                     | None => Forall_nil P
                     end)
           end).
Qed.

Lemma size_eq (item : TreeItemCreate.t) : size item = 1 + size_all (kids item).
Proof. destruct item as [name data [l|]]; reflexivity. Qed.

Lemma depth_eq (item : TreeItemCreate.t) : depth item = S (depth_all (kids item)).
Proof. destruct item as [name data [l|]]; reflexivity. Qed.

Lemma rows_of_eq (item : TreeItemCreate.t) (p : option Z) (n : Z) :
  rows_of item p n =
  TreeNode.mk n (TreeItemCreate.name item) (TreeItemCreate.data item) p
    :: rows_of_all (kids item) n (n + 1).
Proof.
  destruct item as [name data [l|]]; [|reflexivity].
  simpl. f_equal. generalize (n + 1).
  induction l as [|c l IHl]; intros m; [reflexivity|].
  simpl. f_equal. apply IHl.
Qed.

Lemma response_of_eq (item : TreeItemCreate.t) (p : option Z) (n : Z) :
  response_of item p n =
  TreeItemResponse.mk n (TreeItemCreate.name item) (TreeItemCreate.data item) p
    (match responses_of_all (kids item) n (n + 1) with
     | [] => None
     | c :: l => Some (c :: l)
     end).
Proof.
  destruct item as [name data [[|c l]|]]; try reflexivity.
  simpl. do 3 f_equal. generalize (n + 1 + size c).
  induction l as [|c' l IHl]; intros m; [reflexivity|].
  simpl. f_equal. apply IHl.
Qed.

Lemma rows_under_eq (e : backend) (item : TreeItemCreate.t) (p : option Z)
      (n : Z) :
  rows_under e item p n =
  TreeNode.mk n (TreeItemCreate.name item) (TreeItemCreate.data item) p
  :: rows_under_all e (kids item) (returned e n) (n + 1).
Proof.
  destruct item as [name data [l|]]; [|reflexivity].
  simpl. f_equal. generalize (n + 1).
  induction l as [|c l IHl]; intros m; [reflexivity|].
  simpl. f_equal. apply IHl.
Qed.

Lemma insert_tree_recursive_eq (item : TreeItemCreate.t) (p : option Z)
      (db : database) :
  insert_tree_recursive item p db =
  (returned (engine db) (assigned_id db),
   insert_all (kids item) (returned (engine db) (assigned_id db))
              (snd (execute_insert (TreeItemCreate.name item)
                                   (TreeItemCreate.data item) p db))).
Proof.
  destruct item as [name data [[|c l]|]]; try reflexivity.
  unfold execute_insert.
  cbn [insert_tree_recursive execute_insert kids snd fst
       TreeItemCreate.children TreeItemCreate.name TreeItemCreate.data].
  unfold execute_insert. f_equal. cbn [insert_all snd].
  match goal with
  | |- _ = insert_all l _ ?d => generalize d
  end.
  induction l as [|c' l IHl]; intros d; [reflexivity|].
  cbn [insert_all]. apply IHl.
Qed.

Lemma size_all_nonneg (l : list TreeItemCreate.t) :
  Forall (fun c => 0 < size c) l -> 0 <= size_all l.
Proof. induction 1; simpl; lia. Qed.

Lemma size_pos (item : TreeItemCreate.t) : 0 < size item.
Proof.
  induction item as [item IH] using item_induction.
  rewrite size_eq. apply size_all_nonneg in IH. lia.
Qed.

Lemma size_all_pos (l : list TreeItemCreate.t) : 0 <= size_all l.
Proof.
  apply size_all_nonneg. apply Forall_forall. intros c _. apply size_pos.
Qed.

Lemma fold_left_max_le (l : list Z) (a : Z) : a <= fold_left Z.max l a.
Proof.
  revert a. induction l as [|x l IH]; intros a; simpl; [lia|].
  specialize (IH (Z.max a x)). lia.
Qed.

Lemma new_rowid_snoc (tbl : table) (r : Row) :
  new_rowid tbl <= TreeNode.id r + 1 ->
  new_rowid (tbl ++ [r]) = TreeNode.id r + 1.
Proof.
  destruct tbl as [|x tbl]; [reflexivity|].
  cbn [new_rowid app]. rewrite map_app, fold_left_app. cbn [map fold_left]. lia.
Qed.

(** One insert moves the id of the next insert on by one, on every
    engine. *)
Lemma execute_insert_spec (name : string) (data : option string)
      (p : option Z) (db : database) :
  engine (snd (execute_insert name data p db)) = engine db /\
  assigned_id (snd (execute_insert name data p db)) = assigned_id db + 1 /\
  next_id (snd (execute_insert name data p db))
  = match engine db with
    | SQLite false => next_id db
    | _ => assigned_id db + 1
    end.
Proof.
  split; [reflexivity|]. split; [|reflexivity].
  unfold execute_insert, assigned_id. cbn [snd engine tree_items next_id].
  destruct (engine db) as [[|]|]; [| |reflexivity].
  - rewrite new_rowid_snoc; cbn [TreeNode.id]; lia.
  - rewrite new_rowid_snoc; cbn [TreeNode.id]; lia.
Qed.

(** What the recursive insert does to the database. *)
Lemma insert_tree_recursive_spec (item : TreeItemCreate.t) :
  forall p db,
    fst (insert_tree_recursive item p db)
    = returned (engine db) (assigned_id db) /\
    tree_items (snd (insert_tree_recursive item p db)) =
      tree_items db ++ rows_under (engine db) item p (assigned_id db) /\
    (engine (snd (insert_tree_recursive item p db)) = engine db /\
     assigned_id (snd (insert_tree_recursive item p db))
     = assigned_id db + size item /\
     next_id (snd (insert_tree_recursive item p db))
     = match engine db with
       | SQLite false => next_id db
       | _ => assigned_id db + size item
       end) /\
    exists evs,
      writes_since db (snd (insert_tree_recursive item p db)) evs /\
      Forall is_insert evs.
Proof.
  induction item as [item IH] using item_induction. intros p db.
  rewrite insert_tree_recursive_eq, rows_under_eq, size_eq.
  cbn [fst snd]. split; [reflexivity|].
  destruct (execute_insert_spec (TreeItemCreate.name item)
                                (TreeItemCreate.data item) p db)
    as [He1 [Ha1 Hn1]].
  set (db1 := snd (execute_insert _ _ p db)) in *.
  set (ret := returned (engine db) (assigned_id db)).
  assert (Ht1 : tree_items db1
                = tree_items db
                  ++ [TreeNode.mk (assigned_id db) (TreeItemCreate.name item)
                                  (TreeItemCreate.data item) p]) by reflexivity.
  assert (Hj1 : journal db1
                = journal db
                  ++ [(INSERT (TreeItemCreate.name item)
                              (TreeItemCreate.data item) p, tree_items db)])
    by reflexivity.
  assert (Hall : forall l d,
             Forall (fun c => forall p db,
                fst (insert_tree_recursive c p db)
                = returned (engine db) (assigned_id db) /\
                tree_items (snd (insert_tree_recursive c p db)) =
                  tree_items db ++ rows_under (engine db) c p (assigned_id db) /\
                (engine (snd (insert_tree_recursive c p db)) = engine db /\
                 assigned_id (snd (insert_tree_recursive c p db))
                 = assigned_id db + size c /\
                 next_id (snd (insert_tree_recursive c p db))
                 = match engine db with
                   | SQLite false => next_id db
                   | _ => assigned_id db + size c
                   end) /\
                exists evs,
                  writes_since db (snd (insert_tree_recursive c p db)) evs /\
                  Forall is_insert evs) l ->
             tree_items (insert_all l ret d) =
               tree_items d ++ rows_under_all (engine d) l ret (assigned_id d) /\
             (engine (insert_all l ret d) = engine d /\
              assigned_id (insert_all l ret d) = assigned_id d + size_all l /\
              next_id (insert_all l ret d)
              = match engine d with
                | SQLite false => next_id d
                | _ => match l with
                       | [] => next_id d
                       | _ :: _ => assigned_id d + size_all l
                       end
                end) /\
             exists evs, writes_since d (insert_all l ret d) evs /\
                         Forall is_insert evs).
  { clear. induction l as [|c l IHl]; intros d Hl;
      cbn [insert_all rows_under_all size_all].
    - rewrite app_nil_r. split; [reflexivity|].
      split; [repeat split; [lia | now destruct (engine d) as [[|]|]]|].
      exists []. unfold writes_since. rewrite app_nil_r. now split.
    - destruct (Forall_inv Hl ret d) as [_ [Ht [[He [Ha Hn]] [e1 [Hj1 Hi1]]]]].
      destruct (IHl (snd (insert_tree_recursive c ret d)) (Forall_inv_tail Hl))
        as [Ht2 [[He2 [Ha2 Hn2]] [e2 [Hj2 Hi2]]]].
      rewrite Ht2, He2, Ha2, Hn2, Ht, He, Ha, Hn.
      split; [now rewrite app_assoc|].
      split.
      + repeat split; [lia|].
        destruct (engine d) as [[|]|]; try reflexivity;
          destruct l; cbn [size_all]; lia.
      + exists (e1 ++ e2). unfold writes_since in *.
        rewrite Hj2, Hj1. split; [now rewrite app_assoc|].
        apply Forall_app. now split. }
  destruct (Hall (kids item) db1 IH) as [Ht [[He [Ha Hn]] [evs [Hj Hi]]]].
  rewrite Ht, He, Ha, Hn, He1, Ha1, Hn1, Ht1.
  split; [now rewrite <- app_assoc|].
  split.
  - repeat split; [lia|].
    destruct (engine db) as [[|]|]; try reflexivity;
      destruct (kids item); cbn [size_all]; lia.
  - exists ((INSERT (TreeItemCreate.name item) (TreeItemCreate.data item) p,
             tree_items db) :: evs).
    unfold writes_since in *. rewrite Hj, Hj1.
    split; [now rewrite <- app_assoc|].
    constructor; [exact I | assumption].
Qed.

(** The rows of a subtree are numbered in its range and hang under its
    root's parent or under one another, parents first. *)
Lemma below_widen (par k sz k' sz' : Z) (r : Row) :
  k <= k' -> k' + sz' <= k + sz -> below par k' sz' r -> below par k sz r.
Proof.
  unfold below. intros H1 H2 [Hid [q [Hq [Hpar Hlt]]]].
  split; [lia|]. exists q. repeat split; try assumption; lia.
Qed.

Lemma rows_of_below (item : TreeItemCreate.t) :
  forall par k, par < k ->
                Forall (below par k (size item)) (rows_of item (Some par) k).
Proof.
  induction item as [item IH] using item_induction. intros par k Hlt.
  rewrite rows_of_eq, size_eq.
  assert (Hall : forall l par k,
             par < k ->
             Forall (fun c => forall par k, par < k ->
                Forall (below par k (size c)) (rows_of c (Some par) k)) l ->
             Forall (below par k (size_all l)) (rows_of_all l par k)).
  { clear. induction l as [|c l IHl]; intros par k Hlt Hl;
      cbn [rows_of_all size_all]; [constructor|].
    inversion Hl as [|? ? Hc Hl']; subst.
    pose proof (size_pos c). pose proof (size_all_pos l).
    apply Forall_app. split.
    - eapply Forall_impl; [|apply Hc; assumption].
      intros r. apply below_widen; lia.
    - eapply Forall_impl; [|apply IHl; [lia | assumption]].
      intros r [Hid [q [Hq [Hpar Hq']]]]. split; [lia|].
      exists q. repeat split; try assumption; lia. }
  pose proof (size_all_pos (kids item)).
  constructor.
  - unfold below. cbn [TreeNode.id TreeNode.parent_id]. split; [lia|].
    exists par. repeat split; auto.
  - eapply Forall_impl; [|apply Hall; [|exact IH]]; [|lia].
    intros r [Hid [q [Hq [Hpar Hq']]]]. split; [lia|].
    exists q. repeat split; try assumption; lia.
Qed.

Lemma rows_of_all_below (l : list TreeItemCreate.t) (par k : Z) :
  par < k -> Forall (below par k (size_all l)) (rows_of_all l par k).
Proof.
  revert k. induction l as [|c l IHl]; intros k Hlt;
    cbn [rows_of_all size_all]; [constructor|].
  pose proof (size_pos c). pose proof (size_all_pos l).
  apply Forall_app. split.
  - eapply Forall_impl; [|apply rows_of_below; assumption].
    intros r. apply below_widen; lia.
  - eapply Forall_impl; [|apply IHl; lia].
    intros r [Hid [q [Hq [Hpar Hq']]]]. split; [lia|].
    exists q. repeat split; try assumption; lia.
Qed.

End Insert.

(** ** The recursive read *)

Section Build.

Lemma collect_in (A : Type) (build : Z -> option (option A)) (ids : list Z) :
  forall l, collect build ids = Some l ->
            forall c, In c l -> exists i, In i ids /\ build i = Some (Some c).
Proof.
  induction ids as [|i ids IH]; simpl; intros l H c Hc.
  - inversion H; subst. contradiction.
  - destruct (build i) as [o|] eqn:Ei; [|discriminate].
    destruct (collect build ids) as [rest|] eqn:Er; [|discriminate].
    inversion H; subst; clear H.
    destruct o as [c0|].
    + destruct Hc as [Hc|Hc].
      * subst. exists i. split; [now left | assumption].
      * destruct (IH rest eq_refl c Hc) as [j [Hj Hb]].
        exists j. split; [now right | assumption].
    + destruct (IH rest eq_refl c Hc) as [j [Hj Hb]].
      exists j. split; [now right | assumption].
Qed.

Lemma collect_finished (A : Type) (build : Z -> option (option A)) (ids : list Z) :
  forall l, collect build ids = Some l ->
            forall i, In i ids -> exists o, build i = Some o.
Proof.
  induction ids as [|i ids IH]; simpl; intros l H j Hj; [contradiction|].
  destruct (build i) as [o|] eqn:Ei; [|discriminate].
  destruct (collect build ids) as [rest|] eqn:Er; [|discriminate].
  destruct Hj as [Hj|Hj].
  - subst. now exists o.
  - eapply IH; eauto.
Qed.

Lemma collect_keeps (A : Type) (build : Z -> option (option A)) (ids : list Z) :
  forall l, collect build ids = Some l ->
            forall i c, In i ids -> build i = Some (Some c) -> In c l.
Proof.
  induction ids as [|i ids IH]; simpl; intros l H j c Hj Hb; [contradiction|].
  destruct (build i) as [o|] eqn:Ei; [|discriminate].
  destruct (collect build ids) as [rest|] eqn:Er; [|discriminate].
  inversion H; subst; clear H.
  destruct Hj as [Hj|Hj].
  - subst. rewrite Hb in Ei. inversion Ei; subst. now left.
  - pose proof (IH rest eq_refl j c Hj Hb) as Hin.
    destruct o; [now right | assumption].
Qed.

Lemma collect_total (A : Type) (build : Z -> option (option A)) (ids : list Z) :
  (forall i, In i ids -> exists o, build i = Some o) ->
  exists l, collect build ids = Some l.
Proof.
  induction ids as [|i ids IH]; simpl; intros H.
  - now exists [].
  - destruct (H i (or_introl eq_refl)) as [o Eo]. rewrite Eo.
    destruct IH as [rest Er]; [intros j Hj; apply H; now right|].
    rewrite Er. eexists. reflexivity.
Qed.

(** One unfolding of [build_tree_recursive] on a row that exists. *)
Lemma build_tree_recursive_some (fuel : nat) (tbl : table) (x : Z)
      (t : TreeItemResponse.t) :
  build_tree_recursive fuel tbl x = Some (Some t) ->
  exists fuel' node built,
    fuel = S fuel' /\
    fetch_one_by_id x tbl = Some node /\
    collect (build_tree_recursive fuel' tbl) (fetch_children x tbl) = Some built /\
    t = TreeItemResponse.mk
          (TreeNode.id node) (TreeNode.name node)
          (TreeNode.data node) (TreeNode.parent_id node)
          (match built with [] => None | _ :: _ => Some built end).
Proof.
  destruct fuel as [|fuel']; simpl; [discriminate|].
  destruct (fetch_one_by_id x tbl) as [node|]; [|discriminate].
  destruct (collect _ _) as [built|] eqn:E; [|discriminate].
  intros H. inversion H; subst. exists fuel', node, built. auto.
Qed.

Lemma build_tree_recursive_none (fuel : nat) (tbl : table) (x : Z) :
  build_tree_recursive fuel tbl x = Some None -> ~ exists_in tbl x.
Proof.
  destruct fuel as [|fuel']; simpl; [discriminate|].
  destruct (fetch_one_by_id x tbl) as [node|] eqn:E.
  - destruct (collect _ _); discriminate.
  - intros _. now apply fetch_one_by_id_none.
Qed.

(** Every node of a tree that was built has its children field as the
    table has it. *)
Lemma build_tree_recursive_children (tbl : table) (fuel : nat) :
  forall x t,
    build_tree_recursive fuel tbl x = Some (Some t) ->
    forall u, occurs_in t u -> children_as_stored tbl u.
Proof.
  induction fuel as [|fuel IH]; intros x t Hb u Hu.
  - discriminate.
  - apply build_tree_recursive_some in Hb.
    destruct Hb as [fuel' [node [built [Hf [Hnode [Hcol Ht]]]]]].
    inversion Hf; subst fuel'; clear Hf.
    apply fetch_one_by_id_some in Hnode. destruct Hnode as [Hin Hid].
    assert (Hkids : response_kids t = built).
    { subst t. unfold response_kids. simpl. now destruct built. }
    inversion Hu as [|c u' Hc Hcu]; subst u.
    + subst t. unfold children_as_stored. simpl. rewrite Hid.
      destruct built as [|c built].
      * split; [discriminate|]. split.
        -- intros [c [l Hcl]]. discriminate.
        -- intros [r [Hr Hpar]]. exfalso.
           assert (Hi : In (TreeNode.id r) (fetch_children x tbl))
             by (apply in_fetch_children; now exists r).
           destruct (collect_finished _ _ Hcol _ Hi) as [[c|] Hc].
           ++ apply (collect_keeps _ _ Hcol _ Hi Hc).
           ++ apply build_tree_recursive_none in Hc. apply Hc.
              now exists r.
      * split; [discriminate|]. split.
        -- intros _.
           destruct (collect_in _ _ Hcol c (or_introl eq_refl)) as [i [Hi _]].
           apply in_fetch_children in Hi. destruct Hi as [r [Hr [Hpar _]]].
           now exists r.
        -- intros _. now exists c, built.
    + rewrite Hkids in Hc.
      destruct (collect_in _ _ Hcol c Hc) as [i [_ Hbi]].
      eapply IH; eauto.
Qed.

(** On a table where parents precede children the read finishes. *)
Lemma build_tree_recursive_total (tbl : table) (M : Z) :
  parent_before_child tbl ->
  (forall r, In r tbl -> TreeNode.id r <= M) ->
  forall fuel x,
    Z.max 0 (M - x) < Z.of_nat fuel ->
    exists o, build_tree_recursive fuel tbl x = Some o.
Proof.
  intros Hpbc HM. induction fuel as [|fuel IH]; intros x Hfuel; [lia|].
  simpl. destruct (fetch_one_by_id x tbl) as [node|]; [|now eexists].
  destruct (@collect_total _ (build_tree_recursive fuel tbl)
                           (fetch_children x tbl)) as [built E].
  - intros i Hi. apply in_fetch_children in Hi.
    destruct Hi as [r [Hin [Hpar Hid]]].
    pose proof (Hpbc r x Hin Hpar). pose proof (HM r Hin).
    apply IH. lia.
  - rewrite E. now eexists.
Qed.

Lemma ids_bounded_below (tbl : table) :
  exists m, forall r, In r tbl -> m <= TreeNode.id r.
Proof.
  induction tbl as [|r tbl [m Hm]].
  - exists 0. intros r [].
  - exists (Z.min m (TreeNode.id r)). intros r' [Hr'|Hr'].
    + subst. lia.
    + specialize (Hm r' Hr'). lia.
Qed.

Lemma retrieve_tree_total (tbl : table) :
  parent_before_child tbl ->
  exists n, forall fuel, (n <= fuel)%nat ->
                         exists trees, retrieve_tree fuel tbl = Some trees.
Proof.
  intros Hpbc.
  destruct (ids_bounded tbl) as [M HM].
  destruct (ids_bounded_below tbl) as [m Hm].
  exists (S (Z.to_nat (M - m))). intros fuel Hfuel.
  unfold retrieve_tree.
  destruct (fetch_root_ids tbl) as [|i ids] eqn:E; [now eexists|].
  rewrite <- E. apply collect_total. intros j Hj.
  apply in_fetch_root_ids in Hj. destruct Hj as [r [Hin [_ Hid]]].
  pose proof (Hm r Hin). pose proof (HM r Hin).
  apply build_tree_recursive_total with (M := M); auto. lia.
Qed.

End Build.

(** ** Reading back what was inserted *)

Section RoundTrip.

Lemma foreign_narrow (n sz n' sz' : Z) (r : Row) :
  n <= n' -> n' + sz' <= n + sz -> foreign n sz r -> foreign n' sz' r.
Proof.
  unfold foreign. intros H1 H2 [Hid Hpar]. split; [lia|].
  intros q Hq. specialize (Hpar q Hq). lia.
Qed.

(** Rows of a sibling's range are foreign to a range beside it. *)
Lemma below_foreign (par k sz n sz' : Z) (r : Row) :
  par < n -> par < k -> (k + sz <= n \/ n + sz' <= k) ->
  below par k sz r -> foreign n sz' r.
Proof.
  unfold below, foreign. intros H1 H2 H3 [Hid [q [Hq [Hpar Hlt]]]].
  split; [lia|]. intros q' Hq'. rewrite Hq in Hq'. inversion Hq'; subst. lia.
Qed.

Lemma fetch_one_by_id_foreign (n sz : Z) (l rest : table) :
  0 < sz -> Forall (foreign n sz) l ->
  fetch_one_by_id n (l ++ rest) = fetch_one_by_id n rest.
Proof.
  intros Hsz. unfold fetch_one_by_id.
  induction 1 as [|r l [Hid _] Hl IH]; simpl; [reflexivity|].
  destruct (TreeNode.id r =? n) eqn:E; [|assumption].
  apply Z.eqb_eq in E. lia.
Qed.

Lemma fetch_children_foreign (n sz : Z) (l : table) :
  0 < sz -> Forall (foreign n sz) l -> fetch_children n l = [].
Proof.
  intros Hsz. unfold fetch_children.
  induction 1 as [|r l [_ Hpar] Hl IH]; simpl; [reflexivity|].
  destruct (opt_Z_eqb (TreeNode.parent_id r) (Some n)) eqn:E; [|assumption].
  apply opt_Z_eqb_eq in E. specialize (Hpar n E). lia.
Qed.

(** Under a node numbered [n], the rows of its children's subtrees
    answer the children query with the children's ids, in order. *)
Lemma fetch_children_rows_of_all (l : list TreeItemCreate.t) (n : Z) :
  forall m, n < m -> fetch_children n (rows_of_all l n m) = child_ids l m.
Proof.
  induction l as [|c l IHl]; intros m Hlt; [reflexivity|].
  cbn [rows_of_all child_ids]. rewrite fetch_children_app.
  pose proof (size_pos c).
  rewrite IHl by lia. rewrite rows_of_eq.
  change (?r :: ?t) with ([r] ++ t) at 1. rewrite fetch_children_app.
  rewrite (@fetch_children_foreign n 1 (rows_of_all (kids c) m (m + 1))).
  - unfold fetch_children. simpl. rewrite Z.eqb_refl. reflexivity.
  - lia.
  - eapply Forall_impl; [|apply rows_of_all_below; lia].
    intros r [Hid [q [Hq [Hpar Hq']]]]. split; [lia|].
    intros q' Hq''. rewrite Hq in Hq''. inversion Hq''; subst. lia.
Qed.

(** The heart of the round trip: inside any table that holds the rows
    of an input tree as a block no other row refers into, the read at
    the block's first id rebuilds the tree. *)
Lemma build_tree_recursive_rows_of (item : TreeItemCreate.t) :
  forall p n pre post fuel,
    (forall q, p = Some q -> q < n) ->
    Forall (foreign n (size item)) pre ->
    Forall (foreign n (size item)) post ->
    (depth item <= fuel)%nat ->
    build_tree_recursive fuel (pre ++ rows_of item p n ++ post) n =
    Some (Some (response_of item p n)).
Proof.
  induction item as [item IH] using item_induction.
  intros p n pre post fuel Hp Hpre Hpost Hfuel.
  rewrite depth_eq in Hfuel. destruct fuel as [|fuel]; [lia|].
  apply le_S_n in Hfuel.
  pose proof (size_pos item) as Hsz. pose proof (size_all_pos (kids item)) as Hsa.
  pose proof (size_eq item) as Hsize.
  set (tbl := pre ++ rows_of item p n ++ post).
  cbn [build_tree_recursive].
  assert (Hone : fetch_one_by_id n tbl =
                 Some (TreeNode.mk n (TreeItemCreate.name item)
                                   (TreeItemCreate.data item) p)).
  { unfold tbl. rewrite (fetch_one_by_id_foreign _ Hsz Hpre).
    rewrite rows_of_eq. unfold fetch_one_by_id. simpl.
    now rewrite Z.eqb_refl. }
  assert (Hch : fetch_children n tbl = child_ids (kids item) (n + 1)).
  { unfold tbl. rewrite !fetch_children_app.
    rewrite (fetch_children_foreign Hsz Hpre), (fetch_children_foreign Hsz Hpost).
    rewrite app_nil_r. simpl. rewrite rows_of_eq.
    change (?r :: ?t) with ([r] ++ t) at 1. rewrite fetch_children_app.
    rewrite fetch_children_rows_of_all by lia.
    unfold fetch_children. simpl.
    destruct p as [q|]; simpl; [|reflexivity].
    specialize (Hp q eq_refl).
    destruct (q =? n) eqn:E; [apply Z.eqb_eq in E; lia | reflexivity]. }
  rewrite Hone, Hch.
  assert (Hall : forall l m pre' post',
             n < m ->
             tbl = pre' ++ rows_of_all l n m ++ post' ->
             Forall (foreign m (size_all l)) pre' ->
             Forall (foreign m (size_all l)) post' ->
             (depth_all l <= fuel)%nat ->
             Forall (fun c => forall p n pre post fuel,
                (forall q, p = Some q -> q < n) ->
                Forall (foreign n (size c)) pre ->
                Forall (foreign n (size c)) post ->
                (depth c <= fuel)%nat ->
                build_tree_recursive fuel (pre ++ rows_of c p n ++ post) n =
                Some (Some (response_of c p n))) l ->
             collect (build_tree_recursive fuel tbl) (child_ids l m) =
             Some (responses_of_all l n m)).
  { clear - tbl. generalize tbl. clear tbl. intros tbl.
    induction l as [|c l IHl]; intros m pre' post' Hlt Htbl Hpre' Hpost' Hd Hl;
      [reflexivity|].
    cbn [child_ids collect responses_of_all].
    cbn [rows_of_all size_all depth_all] in *.
    pose proof (Forall_inv Hl) as Hc. pose proof (Forall_inv_tail Hl) as Hl'.
    pose proof (size_pos c). pose proof (size_all_pos l).
    assert (Ec : build_tree_recursive fuel tbl m =
                 Some (Some (response_of c (Some n) m))).
    { rewrite Htbl, <- app_assoc. apply Hc.
      - intros q Hq. inversion Hq; subst. lia.
      - eapply Forall_impl; [|exact Hpre']. intros r. apply foreign_narrow; lia.
      - apply Forall_app. split.
        + eapply Forall_impl; [|apply (@rows_of_all_below l n (m + size c)); lia].
          intros r. apply below_foreign; lia.
        + eapply Forall_impl; [|exact Hpost']. intros r. apply foreign_narrow; lia.
      - lia. }
    rewrite Ec.
    rewrite (IHl (m + size c) (pre' ++ rows_of c (Some n) m) post'); auto.
    - lia.
    - rewrite Htbl. now rewrite <- !app_assoc.
    - apply Forall_app. split.
      + eapply Forall_impl; [|exact Hpre']. intros r. apply foreign_narrow; lia.
      + eapply Forall_impl; [|apply rows_of_below; lia].
        intros r. apply below_foreign; lia.
    - eapply Forall_impl; [|exact Hpost']. intros r. apply foreign_narrow; lia.
    - lia. }
  rewrite (Hall (kids item) (n + 1)
                (pre ++ [TreeNode.mk n (TreeItemCreate.name item)
                                     (TreeItemCreate.data item) p]) post).
  - rewrite response_of_eq.
    destruct (responses_of_all (kids item) n (n + 1)); reflexivity.
  - lia.
  - unfold tbl. rewrite rows_of_eq. rewrite <- app_assoc. reflexivity.
  - apply Forall_app. split.
    + eapply Forall_impl; [|exact Hpre]. intros r. apply foreign_narrow; lia.
    + constructor; [|constructor]. split; simpl; [lia|].
      intros q Hq. specialize (Hp q Hq). lia.
  - eapply Forall_impl; [|exact Hpost]. intros r. apply foreign_narrow; lia.
  - assumption.
  - assumption.
Qed.

Lemma shape_of_response_of (item : TreeItemCreate.t) :
  forall p n, shape_of_response (response_of item p n) = shape_of_item item.
Proof.
  induction item as [item IH] using item_induction. intros p n.
  destruct item as [name data [[|c l]|]]; try reflexivity.
  unfold kids in IH. simpl in IH. simpl. do 2 f_equal.
  - inversion IH; subst. auto.
  - inversion IH as [|? ? _ IHl]; subst. clear IH.
    generalize (n + 1 + size c).
    induction IHl as [|c' l Hc' Hl IHl']; intros m; [reflexivity|].
    simpl. f_equal; auto.
Qed.

Lemma linked_response_of (item : TreeItemCreate.t) :
  forall p n, linked (response_of item p n).
Proof.
  induction item as [item IH] using item_induction. intros p n.
  destruct item as [name data [[|c l]|]]; try exact I.
  unfold kids in IH. simpl in IH. simpl.
  inversion IH as [|? ? Hc IHl]; subst. clear IH.
  split; [destruct c; reflexivity|]. split; [apply Hc|].
  generalize (n + 1 + size c).
  induction IHl as [|c' l Hc' Hl IHl']; intros m; [exact I|].
  simpl. split; [destruct c'; reflexivity|]. split; [apply Hc'|]. apply IHl'.
Qed.

End RoundTrip.

(** ** Validation *)

Section Validation.

Lemma validate_TreeItemCreate_eq (fields : list (string * json)) :
  validate_TreeItemCreate (JObject fields) =
  match validate_str (get "name" fields),
        validate_optional_str (get "data" fields),
        validate_children (get "children" fields) with
  | Some name, Some data, Some children =>
      Some (TreeItemCreate.mk name data children)
  | _, _, _ => None
  end.
Proof.
  cbn [validate_TreeItemCreate].
  match goal with
  | |- context [?f fields] =>
      lazymatch f with
      | get _ => fail
      | _ => assert (E : f fields = validate_children (get "children" fields))
      end
  end.
  { induction fields as [|[k v] fields IH]; [reflexivity|].
    cbn [get]. destruct (String.eqb k "children"); [|exact IH].
    destruct v; reflexivity. }
  now rewrite E.
Qed.

Lemma validate_all_fails (items : list json) (c : json) :
  In c items -> validate_TreeItemCreate c = None -> validate_all items = None.
Proof.
  induction items as [|x items IH]; intros Hin Hc; [contradiction|].
  cbn [validate_all]. destruct Hin as [Hin|Hin].
  - subst. now rewrite Hc.
  - rewrite (IH Hin Hc). now destruct (validate_TreeItemCreate x).
Qed.

(** A body in which some node has no string for a name does not
    validate. *)
Lemma lacks_name_invalid (body : json) :
  lacks_name body -> validate_TreeItemCreate body = None.
Proof.
  induction 1 as [fields Hname | fields items c Hget Hin Hc IH];
    rewrite validate_TreeItemCreate_eq.
  - destruct (get "name" fields) as [[| | |s| |]|]; try reflexivity.
    exfalso. now apply (Hname s).
  - rewrite Hget. cbn [validate_children].
    rewrite (validate_all_fails _ _ Hin IH). simpl.
    destruct (validate_str _); [|reflexivity].
    now destruct (validate_optional_str _).
Qed.

Lemma names_rows_of (item : TreeItemCreate.t) :
  forall p n, map TreeNode.name (rows_of item p n) = names item.
Proof.
  induction item as [item IH] using item_induction. intros p n.
  rewrite rows_of_eq. destruct item as [name data children].
  cbn [map TreeNode.name TreeItemCreate.name names]. f_equal.
  unfold kids in *. cbn [TreeItemCreate.children] in *.
  destruct children as [l|]; [|reflexivity].
  generalize (n + 1).
  induction IH as [|c l Hc Hl IHl]; intros m; [reflexivity|].
  cbn [rows_of_all flat_map]. rewrite map_app, Hc, IHl. reflexivity.
Qed.

End Validation.

(** ** The store, engine by engine *)

Section Store.

Lemma in_ids_from (k : nat) :
  forall n x, In x (ids_from n k) <-> n <= x < n + Z.of_nat k.
Proof.
  induction k as [|k IH]; intros n x; cbn [ids_from].
  - simpl. lia.
  - simpl In. rewrite IH. lia.
Qed.

Lemma NoDup_ids_from (k : nat) : forall n, NoDup (ids_from n k).
Proof.
  induction k as [|k IH]; intros n; cbn [ids_from]; constructor.
  - rewrite in_ids_from. lia.
  - apply IH.
Qed.

Lemma ids_from_app (a b : nat) :
  forall n, ids_from n (a + b) = ids_from n a ++ ids_from (n + Z.of_nat a) b.
Proof.
  induction a as [|a IH]; intros n.
  - simpl. now rewrite Z.add_0_r.
  - cbn [ids_from Nat.add app]. rewrite IH. do 3 f_equal. lia.
Qed.

Lemma StronglySorted_ids_from (k : nat) :
  forall n, StronglySorted Z.lt (ids_from n k).
Proof.
  induction k as [|k IH]; intros n; cbn [ids_from]; constructor.
  - apply IH.
  - apply Forall_forall. intros x Hx. apply in_ids_from in Hx. lia.
Qed.

(** On every engine the rows of a replace carry consecutive ids, one
    per node of the input, and the names of the input in pre-order. *)
Lemma rows_under_consecutive (e : backend) (item : TreeItemCreate.t) :
  forall p n,
    map TreeNode.id (rows_under e item p n)
    = ids_from n (List.length (rows_under e item p n)) /\
    Z.of_nat (List.length (rows_under e item p n)) = size item.
Proof.
  induction item as [item IH] using item_induction. intros p n.
  rewrite rows_under_eq, size_eq.
  assert (Hall : forall l q m,
             Forall (fun c => forall p n,
                map TreeNode.id (rows_under e c p n)
                = ids_from n (List.length (rows_under e c p n)) /\
                Z.of_nat (List.length (rows_under e c p n)) = size c) l ->
             map TreeNode.id (rows_under_all e l q m)
             = ids_from m (List.length (rows_under_all e l q m)) /\
             Z.of_nat (List.length (rows_under_all e l q m)) = size_all l).
  { clear. induction l as [|c l IHl]; intros q m Hl; [now split|].
    cbn [rows_under_all size_all].
    destruct (Forall_inv Hl q m) as [Hc1 Hc2].
    destruct (IHl q (m + size c) (Forall_inv_tail Hl)) as [Hl1 Hl2].
    rewrite map_app, length_app, ids_from_app, Hc1, Hl1, Hc2.
    split; [reflexivity | lia]. }
  destruct (Hall (kids item) (returned e n) (n + 1) IH) as [H1 H2].
  cbn [map List.length ids_from TreeNode.id]. rewrite H1.
  split; [reflexivity | lia].
Qed.

Lemma rows_under_ids (e : backend) (item : TreeItemCreate.t) (p : option Z)
      (n : Z) :
  forall r, In r (rows_under e item p n) -> n <= TreeNode.id r < n + size item.
Proof.
  intros r Hin. destruct (rows_under_consecutive e item p n) as [H1 H2].
  apply (in_map TreeNode.id) in Hin. rewrite H1 in Hin.
  apply in_ids_from in Hin. lia.
Qed.

Lemma names_rows_under (e : backend) (item : TreeItemCreate.t) :
  forall p n, map TreeNode.name (rows_under e item p n) = names item.
Proof.
  induction item as [item IH] using item_induction. intros p n.
  rewrite rows_under_eq. generalize (returned e n). intros q.
  destruct item as [name data children].
  cbn [map TreeNode.name TreeItemCreate.name names]. f_equal.
  unfold kids in *. cbn [TreeItemCreate.children] in *.
  destruct children as [l|]; [|reflexivity].
  generalize (n + 1).
  induction IH as [|c l Hc Hl IHl]; intros m; [reflexivity|].
  cbn [rows_under_all flat_map]. rewrite map_app, Hc, IHl. reflexivity.
Qed.

(** On SQLite the rows are those of the input tree, every node under
    its parent; on PostgreSQL no node below the root is under
    anything. *)
Lemma rows_under_sqlite (a : bool) (item : TreeItemCreate.t) :
  forall p n, rows_under (SQLite a) item p n = rows_of item p n.
Proof.
  induction item as [item IH] using item_induction. intros p n.
  rewrite rows_under_eq, rows_of_eq. f_equal. cbn [returned].
  generalize (n + 1).
  induction IH as [|c l Hc Hl IHl]; intros m; [reflexivity|].
  cbn [rows_under_all rows_of_all]. now rewrite Hc, IHl.
Qed.

Lemma rows_under_postgresql (item : TreeItemCreate.t) :
  forall p n r,
    In r (rows_under PostgreSQL item p n) ->
    TreeNode.parent_id r = p \/ TreeNode.parent_id r = None.
Proof.
  induction item as [item IH] using item_induction. intros p n r Hin.
  rewrite rows_under_eq in Hin. destruct Hin as [Hin|Hin].
  - subst r. now left.
  - right. cbn [returned] in Hin. revert Hin. generalize (n + 1).
    induction IH as [|c l Hc Hl IHl]; intros m Hin; [contradiction|].
    cbn [rows_under_all] in Hin. apply in_app_or in Hin.
    destruct Hin as [Hin|Hin].
    + destruct (Hc None m r Hin); assumption.
    + eapply IHl; eauto.
Qed.

Lemma rows_of_parent_before_child (item : TreeItemCreate.t) (n : Z) :
  parent_before_child (rows_of item None n).
Proof.
  intros r p Hin Hpar. rewrite rows_of_eq in Hin. destruct Hin as [Hin|Hin].
  - subst r. discriminate.
  - pose proof (@rows_of_all_below (kids item) n (n + 1)) as Hb.
    rewrite Forall_forall in Hb.
    destruct (Hb ltac:(lia) r Hin) as [_ [q [Hq [_ Hlt]]]].
    rewrite Hq in Hpar. inversion Hpar; subst. exact Hlt.
Qed.

Lemma rows_of_ids (item : TreeItemCreate.t) (p : option Z) (n : Z) :
  forall r, In r (rows_of item p n) -> n <= TreeNode.id r < n + size item.
Proof.
  intros r. rewrite <- (rows_under_sqlite false). apply rows_under_ids.
Qed.

Lemma rows_of_parents_exist (item : TreeItemCreate.t) (n : Z) :
  parents_exist (rows_of item None n).
Proof.
  intros r p Hin Hpar.
  pose proof (rows_of_ids _ _ _ _ Hin) as Hr.
  assert (Hp : n <= p < TreeNode.id r).
  { rewrite rows_of_eq in Hin. destruct Hin as [Hin|Hin].
    - subst r. discriminate.
    - pose proof (@rows_of_all_below (kids item) n (n + 1)) as Hb.
      rewrite Forall_forall in Hb.
      destruct (Hb ltac:(lia) r Hin) as [_ [q [Hq [Hq1 Hq2]]]].
      rewrite Hq in Hpar. inversion Hpar; subst. lia. }
  assert (Hin' : In p (map TreeNode.id (rows_of item None n))).
  { rewrite <- (rows_under_sqlite false).
    destruct (rows_under_consecutive (SQLite false) item None n) as [Hids Hlen].
    rewrite Hids. apply in_ids_from. lia. }
  apply in_map_iff in Hin'. destruct Hin' as [rp [E Hrp]]. now exists rp.
Qed.

Lemma rows_under_parent_before_child (e : backend) (item : TreeItemCreate.t)
      (n : Z) :
  parent_before_child (rows_under e item None n).
Proof.
  destruct e as [a|].
  - rewrite rows_under_sqlite. apply rows_of_parent_before_child.
  - intros r p Hin Hpar.
    destruct (rows_under_postgresql _ _ _ _ Hin); congruence.
Qed.

Lemma rows_under_parents_exist (e : backend) (item : TreeItemCreate.t) (n : Z) :
  parents_exist (rows_under e item None n).
Proof.
  destruct e as [a|].
  - rewrite rows_under_sqlite. apply rows_of_parents_exist.
  - intros r p Hin Hpar.
    destruct (rows_under_postgresql _ _ _ _ Hin); congruence.
Qed.

Lemma first_id_eq (db : database) :
  assigned_id (execute_delete_all db) = first_id db.
Proof.
  unfold assigned_id, first_id. cbn [execute_delete_all engine tree_items next_id].
  now destruct (engine db) as [[|]|].
Qed.

(** What a replace does to the database. *)
Lemma create_tree_item_eq (item : TreeItemCreate.t) (db : database) :
  fst (create_tree_item item db)
  = ("Tree replaced successfully", returned (engine db) (first_id db)) /\
  tree_items (snd (create_tree_item item db))
  = rows_under (engine db) item None (first_id db) /\
  (engine (snd (create_tree_item item db)) = engine db /\
   next_id (snd (create_tree_item item db))
   = match engine db with
     | SQLite false => next_id db
     | _ => first_id db + size item
     end) /\
  exists evs,
    writes_since db (snd (create_tree_item item db))
                 ((DELETE_ALL, tree_items db) :: evs) /\
    Forall is_insert evs.
Proof.
  unfold create_tree_item.
  destruct (insert_tree_recursive_spec item None (execute_delete_all db))
    as [Hid [Ht [[He [_ Hn]] [evs [Hj Hi]]]]].
  rewrite first_id_eq in *.
  destruct (insert_tree_recursive item None (execute_delete_all db))
    as [root_id db2].
  cbn [fst snd] in *. cbn [execute_delete_all tree_items next_id engine] in *.
  subst root_id. rewrite app_nil_l in Ht.
  repeat split; try assumption.
  exists evs. split; [|assumption].
  unfold writes_since in *. rewrite Hj. unfold execute_delete_all, record_write.
  cbn [journal tree_items]. now rewrite <- app_assoc.
Qed.

Lemma new_rowid_above (tbl : table) :
  forall r, In r tbl -> TreeNode.id r < new_rowid tbl.
Proof.
  destruct tbl as [|x tbl]; intros r Hin; [contradiction|].
  cbn [new_rowid].
  assert (H : forall l a y, In y (a :: l) -> y <= fold_left Z.max l a).
  { clear. induction l as [|z l IH]; intros a y Hy; simpl in *.
    - destruct Hy as [Hy|[]]. lia.
    - destruct Hy as [Hy|[Hy|Hy]].
      + pose proof (fold_left_max_le l (Z.max a z)). lia.
      + pose proof (fold_left_max_le l (Z.max a z)). lia.
      + apply IH. now right. }
  specialize (H (map TreeNode.id tbl) (TreeNode.id x) (TreeNode.id r)).
  assert (Hy : In (TreeNode.id r) (TreeNode.id x :: map TreeNode.id tbl)).
  { destruct Hin as [<-|Hin]; [now left | right; now apply in_map]. }
  specialize (H Hy). lia.
Qed.

(** The update, as a table. *)
Lemma set_data_fields (data : string) (item_id : Z) (r : Row) :
  TreeNode.id (set_data data item_id r) = TreeNode.id r /\
  TreeNode.name (set_data data item_id r) = TreeNode.name r /\
  TreeNode.parent_id (set_data data item_id r) = TreeNode.parent_id r.
Proof. unfold set_data. destruct (TreeNode.id r =? item_id); auto. Qed.

Lemma set_data_other (data : string) (item_id : Z) (r : Row) :
  (TreeNode.id r =? item_id) = false -> set_data data item_id r = r.
Proof. unfold set_data. now intros ->. Qed.

Lemma updated_perm (e : backend) (data : string) (item_id : Z) (tbl : table) :
  Permutation (map (set_data data item_id) tbl) (updated e data item_id tbl).
Proof.
  destruct e as [a|]; cbn [updated]; [apply Permutation_refl|].
  induction tbl as [|r tbl IH]; [apply Permutation_refl|].
  cbn [map filter]. destruct (TreeNode.id r =? item_id) eqn:E; cbn [negb map].
  - now apply Permutation_cons_app.
  - rewrite (@set_data_other data _ _ E). cbn [app]. now apply perm_skip.
Qed.

Lemma in_updated (e : backend) (data : string) (item_id : Z) (tbl : table)
      (r' : Row) :
  In r' (updated e data item_id tbl) <->
  exists r, In r tbl /\ r' = set_data data item_id r.
Proof.
  split.
  - intros H.
    apply (Permutation_in _ (Permutation_sym (updated_perm e data item_id tbl)))
      in H.
    apply in_map_iff in H. destruct H as [r [E Hr]]. now exists r.
  - intros [r [Hr E]]. subst r'.
    apply (Permutation_in _ (updated_perm e data item_id tbl)).
    now apply in_map.
Qed.

Lemma map_id_set_data (data : string) (item_id : Z) (tbl : table) :
  map TreeNode.id (map (set_data data item_id) tbl) = map TreeNode.id tbl.
Proof.
  rewrite map_map. apply map_ext. intros r.
  now destruct (set_data_fields data item_id r).
Qed.

Lemma map_id_updated (e : backend) (data : string) (item_id : Z) (tbl : table) :
  Permutation (map TreeNode.id tbl)
              (map TreeNode.id (updated e data item_id tbl)).
Proof.
  rewrite <- (map_id_set_data data item_id tbl).
  apply Permutation_map, updated_perm.
Qed.

Lemma find_filter (A : Type) (f g : A -> bool) (l : list A) :
  (forall a, f a = true -> g a = true) ->
  find f (filter g l) = find f l.
Proof.
  intros H. induction l as [|a l IH]; [reflexivity|].
  cbn [filter find]. destruct (g a) eqn:Eg; cbn [find].
  - now rewrite IH.
  - destruct (f a) eqn:Ef; [|exact IH].
    rewrite (H a Ef) in Eg. discriminate.
Qed.

Lemma find_none_all (A : Type) (f : A -> bool) (l : list A) :
  (forall a, In a l -> f a = false) -> find f l = None.
Proof.
  induction l as [|a l IH]; intros H; [reflexivity|].
  cbn [find]. rewrite (H a (or_introl eq_refl)).
  apply IH. intros b Hb. apply H. now right.
Qed.

Lemma fetch_one_by_id_set_data (data : string) (item_id x : Z) (tbl : table) :
  fetch_one_by_id x (map (set_data data item_id) tbl)
  = option_map (set_data data item_id) (fetch_one_by_id x tbl).
Proof.
  unfold fetch_one_by_id. induction tbl as [|r tbl IH]; [reflexivity|].
  cbn [map find].
  destruct (set_data_fields data item_id r) as [-> _].
  destruct (TreeNode.id r =? x); [reflexivity | exact IH].
Qed.

Lemma find_append (A : Type) (f : A -> bool) (l l' : list A) :
  find f (l ++ l')
  = match find f l with Some a => Some a | None => find f l' end.
Proof.
  induction l as [|a l IH]; [reflexivity|].
  cbn [app find]. destruct (f a); [reflexivity | exact IH].
Qed.

(** Whatever the engine does with the place of an updated row, a lookup
    by id finds after the update the row it found before, updated. *)
Lemma fetch_one_by_id_updated (e : backend) (data : string) (item_id x : Z)
      (tbl : table) :
  fetch_one_by_id x (updated e data item_id tbl)
  = option_map (set_data data item_id) (fetch_one_by_id x tbl).
Proof.
  destruct e as [a|]; cbn [updated]; [apply fetch_one_by_id_set_data|].
  pose proof (fetch_one_by_id_set_data data item_id x
                (filter (fun r => TreeNode.id r =? item_id) tbl)) as Hs.
  unfold fetch_one_by_id in *. rewrite find_append, Hs. clear Hs.
  destruct (Z.eq_dec x item_id) as [E|E].
  - subst x. rewrite (@find_none_all Row).
    + rewrite (@find_filter Row); auto.
    + intros r Hr. apply filter_In in Hr. destruct Hr as [_ Hr].
      now destruct (TreeNode.id r =? item_id).
  - rewrite (@find_filter Row (fun r => TreeNode.id r =? x)
                         (fun r => negb (TreeNode.id r =? item_id)) tbl).
    + destruct (find (fun r => TreeNode.id r =? x) tbl) as [r|] eqn:Ef.
      * cbn [option_map]. apply find_some in Ef. destruct Ef as [_ Ef].
        apply Z.eqb_eq in Ef. rewrite (@set_data_other data item_id r);
          [reflexivity|].
        apply Z.eqb_neq. congruence.
      * rewrite (@find_none_all Row); [reflexivity|].
        intros r Hr. apply filter_In in Hr. destruct Hr as [_ Hr].
        apply Z.eqb_eq in Hr. apply Z.eqb_neq. congruence.
    + intros r Hr. apply Z.eqb_eq in Hr.
      apply negb_true_iff, Z.eqb_neq. congruence.
Qed.

Lemma set_data_twice (d1 d2 : string) (item_id : Z) (r : Row) :
  set_data d2 item_id (set_data d1 item_id r) = set_data d2 item_id r.
Proof.
  unfold set_data. destruct (TreeNode.id r =? item_id) eqn:E;
    cbn [TreeNode.id]; now rewrite E.
Qed.

Lemma filter_all (A : Type) (f : A -> bool) (l : list A) :
  (forall a, In a l -> f a = true) -> filter f l = l.
Proof.
  induction l as [|a l IH]; intros H; [reflexivity|].
  cbn [filter]. rewrite (H a (or_introl eq_refl)). f_equal.
  apply IH. intros b Hb. apply H. now right.
Qed.

Lemma filter_none (A : Type) (f : A -> bool) (l : list A) :
  (forall a, In a l -> f a = false) -> filter f l = [].
Proof.
  induction l as [|a l IH]; intros H; [reflexivity|].
  cbn [filter]. rewrite (H a (or_introl eq_refl)).
  apply IH. intros b Hb. apply H. now right.
Qed.

Lemma updated_twice (e : backend) (d1 d2 : string) (item_id : Z) (tbl : table) :
  updated e d2 item_id (updated e d1 item_id tbl) = updated e d2 item_id tbl.
Proof.
  destruct e as [a|]; cbn [updated].
  - rewrite map_map. apply map_ext. intros r. apply set_data_twice.
  - set (keep := fun r : Row => negb (TreeNode.id r =? item_id)).
    set (hit := fun r : Row => TreeNode.id r =? item_id).
    assert (Hk : forall r, In r (filter keep tbl) -> keep r = true)
      by (intros r Hr; now apply filter_In in Hr).
    assert (Hh : forall r, In r (map (set_data d1 item_id) (filter hit tbl)) ->
                           hit r = true).
    { intros r Hr. apply in_map_iff in Hr. destruct Hr as [r0 [<- Hr0]].
      apply filter_In in Hr0. unfold hit in *.
      now destruct (set_data_fields d1 item_id r0) as [-> _]. }
    rewrite !filter_app.
    rewrite (filter_all keep (filter keep tbl) Hk).
    rewrite (filter_none keep (map (set_data d1 item_id) (filter hit tbl))).
    2:{ intros r Hr. unfold keep. apply Hh in Hr. unfold hit in Hr.
        now rewrite Hr. }
    rewrite (filter_none hit (filter keep tbl)).
    2:{ intros r Hr. apply Hk in Hr. unfold keep, hit in *.
        now destruct (TreeNode.id r =? item_id). }
    rewrite (filter_all hit _ Hh).
    rewrite app_nil_r. cbn [app]. f_equal.
    rewrite map_map. apply map_ext. intros r. apply set_data_twice.
Qed.

(** The existence check of the routes. *)
Lemma check_exists_found (item_id : Z) (db : database) :
  exists_in (tree_items db) item_id ->
  check_exists item_id db = Some (Some item_id).
Proof.
  intros H. unfold check_exists.
  destruct (fetch_one_by_id_found H) as [r Hr]. rewrite Hr.
  apply fetch_one_by_id_some in Hr. now destruct Hr as [_ ->].
Qed.

Lemma check_exists_missing (item_id : Z) (db : database) :
  ~ exists_in (tree_items db) item_id ->
  check_exists item_id db
  = if bindable (engine db) item_id then Some None else None.
Proof.
  intros H. unfold check_exists.
  apply fetch_one_by_id_none in H. now rewrite H.
Qed.

Lemma check_exists_some (item_id x : Z) (db : database) :
  check_exists item_id db = Some (Some x) ->
  exists_in (tree_items db) item_id.
Proof.
  unfold check_exists.
  destruct (fetch_one_by_id item_id (tree_items db)) as [r|] eqn:E.
  - intros _. apply fetch_one_by_id_some in E. now exists r.
  - destruct (bindable _ _); discriminate.
Qed.

Lemma update_tree_item_data_table (item_id : Z) (item : TreeItemUpdate.t)
      (db : database) :
  tree_items (snd (update_tree_item_data item_id item db))
  = match fetch_one_by_id item_id (tree_items db) with
    | Some _ => updated (engine db) (TreeItemUpdate.data item) item_id
                        (tree_items db)
    | None => tree_items db
    end /\
  engine (snd (update_tree_item_data item_id item db)) = engine db /\
  next_id (snd (update_tree_item_data item_id item db)) = next_id db.
Proof.
  unfold update_tree_item_data, check_exists.
  destruct (fetch_one_by_id item_id (tree_items db)); [now repeat split|].
  destruct (bindable _ _); now repeat split.
Qed.

Lemma delete_tree_item_cases (fuel : nat) (item_id : Z) (db db' : database)
      (out : outcome (Z * string)) :
  delete_tree_item fuel item_id db = Some (out, db') ->
  db' = db \/
  (out = Returned (item_id, "Item and children deleted successfully") /\
   subtrees_deleted [item_id] db db').
Proof.
  unfold delete_tree_item. intros H.
  destruct (check_exists item_id db) as [[x|]|];
    [|inversion H; now left | inversion H; now left].
  destruct (delete_recursive fuel item_id db) as [db1|] eqn:E; [|discriminate].
  inversion H; subst. right. split; [reflexivity|].
  eapply delete_recursive_deletes; eauto.
Qed.

Lemma update_tree_item_data_found (item_id : Z) (item : TreeItemUpdate.t)
      (db : database) :
  exists_in (tree_items db) item_id ->
  update_tree_item_data item_id item db
  = (Returned (item_id, TreeItemUpdate.data item, "Data updated successfully"),
     execute_update_data (TreeItemUpdate.data item) item_id db).
Proof.
  intros H. unfold update_tree_item_data.
  now rewrite (@check_exists_found _ _ H).
Qed.

Lemma update_tree_item_data_missing (item_id : Z) (item : TreeItemUpdate.t)
      (db : database) :
  ~ exists_in (tree_items db) item_id ->
  update_tree_item_data item_id item db = (missing _ (engine db) item_id, db).
Proof.
  intros H. unfold update_tree_item_data, missing.
  rewrite (@check_exists_missing _ _ H). now destruct (bindable _ _).
Qed.

Lemma delete_tree_item_found (fuel : nat) (item_id : Z) (db db1 : database) :
  exists_in (tree_items db) item_id ->
  delete_recursive fuel item_id db = Some db1 ->
  delete_tree_item fuel item_id db
  = Some (Returned (item_id, "Item and children deleted successfully"), db1).
Proof.
  intros H E. unfold delete_tree_item.
  now rewrite (@check_exists_found _ _ H), E.
Qed.

Lemma delete_tree_item_missing (fuel : nat) (item_id : Z) (db : database) :
  ~ exists_in (tree_items db) item_id ->
  delete_tree_item fuel item_id db = Some (missing _ (engine db) item_id, db).
Proof.
  intros H. unfold delete_tree_item, missing.
  rewrite (@check_exists_missing _ _ H). now destruct (bindable _ _).
Qed.

(** The deleted ids of a finished delete are the subtree, no more and
    no less. *)
Lemma subtrees_deleted_ids (x : Z) (db db' : database) evs :
  childless_deletes (tree_items db) evs (tree_items db') ->
  (forall d, In d (removed evs) ->
             exists c, In c [x] /\ in_subtree (tree_items db) c d) ->
  (forall c, In c [x] -> In c (removed evs)) ->
  (forall r p, In r (tree_items db) -> TreeNode.parent_id r = Some p ->
               In p (removed evs) -> In (TreeNode.id r) (removed evs)) ->
  forall d, In d (removed evs) <-> in_subtree (tree_items db) x d.
Proof.
  intros Hrun Hsound Hroot Hclosed d. split.
  - intros Hd. destruct (Hsound _ Hd) as [c [[Hc|[]] Hsub]]. now subst.
  - intros Hd. induction Hd as [|p r' Hp IH Hin Hpar].
    + apply Hroot. now left.
    + eapply Hclosed; eauto.
Qed.

Lemma removed_split (evs : list (statement * table)) (x : Z) :
  In x (removed evs) ->
  exists e1 t e2, evs = e1 ++ (DELETE_BY_ID x, t) :: e2.
Proof.
  induction evs as [|[st t] evs IH]; simpl; intros H; [contradiction|].
  destruct st as [n d p| |d i|y].
  - destruct (IH H) as [e1 [t' [e2 E]]].
    exists ((INSERT n d p, t) :: e1), t', e2. now rewrite E.
  - destruct (IH H) as [e1 [t' [e2 E]]].
    exists ((DELETE_ALL, t) :: e1), t', e2. now rewrite E.
  - destruct (IH H) as [e1 [t' [e2 E]]].
    exists ((UPDATE_DATA d i, t) :: e1), t', e2. now rewrite E.
  - destruct H as [H|H].
    + subst y. now exists [], t, evs.
    + destruct (IH H) as [e1 [t' [e2 E]]].
      exists ((DELETE_BY_ID y, t) :: e1), t', e2. now rewrite E.
Qed.

(** In a run of deletes that leave no row behind its parent, the rows
    under an id are gone before the id, at every depth. *)
Lemma childless_deletes_post_order (tbl tbl' : table) evs :
  childless_deletes tbl evs tbl' ->
  forall e1 x t e2 d,
    evs = e1 ++ (DELETE_BY_ID x, t) :: e2 ->
    in_subtree tbl x d -> d <> x -> In d (removed e1).
Proof.
  intros Hrun e1 x t e2 d Hsplit Hsub.
  induction Hsub as [|p r Hp IH Hin Hpar]; intros Hne; [congruence|].
  destruct (in_dec Z.eq_dec (TreeNode.id r) (removed e1)) as [Hr|Hr];
    [assumption | exfalso].
  destruct (Z.eq_dec p x) as [E|E].
  - subst p evs.
    destruct (childless_deletes_split _ _ _ _ Hrun) as [Ht Hfree].
    apply (Hfree r); [|assumption].
    rewrite Ht. apply in_without. now split.
  - specialize (IH E).
    destruct (removed_split _ _ IH) as [a [u [b Ea]]].
    subst e1 evs. rewrite <- app_assoc in Hrun. cbn [app] in Hrun.
    destruct (childless_deletes_split _ _ _ _ Hrun) as [Ht Hfree].
    apply (Hfree r); [|assumption].
    rewrite Ht. apply in_without. split; [assumption|].
    intros Ha. apply Hr. rewrite removed_app. apply in_or_app. now left.
Qed.

(** Every state the service reaches keeps parents ahead of children
    and, where the engine has a sequence, the sequence ahead of the
    ids. *)
Lemma reachable_invariant (db : database) :
  reachable db ->
  parent_before_child (tree_items db) /\
  (engine db <> SQLite false -> ids_below_next db).
Proof.
  induction 1 as [e | db item Hr [Hp Hi] | db item_id item Hr [Hp Hi]
                  | db fuel item_id out db' Hr [Hp Hi] Hd].
  - split; [intros r p [] | intros _ r []].
  - destruct (create_tree_item_eq item db) as [_ [Ht [[He Hn] _]]].
    split.
    + rewrite Ht. apply rows_under_parent_before_child.
    + rewrite He. intros Hseq r Hin. rewrite Ht in Hin. rewrite Hn.
      apply rows_under_ids in Hin.
      destruct (engine db) as [[|]|]; [lia | congruence | lia].
  - destruct (update_tree_item_data_table item_id item db) as [Ht [He Hn]].
    destruct (fetch_one_by_id item_id (tree_items db)).
    + split.
      * intros r p Hin Hpar. rewrite Ht in Hin. apply in_updated in Hin.
        destruct Hin as [r0 [Hin E]]. subst r.
        destruct (set_data_fields (TreeItemUpdate.data item) item_id r0)
          as [E1 [_ E3]].
        rewrite E1. rewrite E3 in Hpar. now apply Hp.
      * rewrite He. intros Hseq r Hin. rewrite Ht in Hin.
        apply in_updated in Hin. destruct Hin as [r0 [Hin E]]. subst r.
        destruct (set_data_fields (TreeItemUpdate.data item) item_id r0)
          as [E1 _].
        rewrite Hn, E1. now apply Hi.
    + split.
      * now rewrite Ht.
      * rewrite He. intros Hseq r Hin. rewrite Ht in Hin. rewrite Hn.
        now apply Hi.
  - destruct (delete_tree_item_cases _ _ _ Hd) as [->|[_ E]];
      [now split|].
    pose proof (subtrees_deleted_incl E) as Hincl.
    destruct E as [evs [_ [[Hn He] _]]].
    split.
    + intros r p Hin. apply Hp. now apply Hincl.
    + rewrite He. intros Hseq r Hin. rewrite Hn. apply Hi; [assumption|].
      now apply Hincl.
Qed.

End Store.

(** ** The properties of the service *)

Section Claims.

Lemma Forall2_map_right (A B : Type) (R : A -> B -> Prop) (f : A -> B)
      (l : list A) :
  (forall a, In a l -> R a (f a)) -> Forall2 R l (map f l).
Proof.
  induction l as [|a l IH]; intros H; simpl; constructor.
  - apply H. now left.
  - apply IH. intros b Hb. apply H. now right.
Qed.

Lemma Forall2_same (A : Type) (R : A -> A -> Prop) (l : list A) :
  (forall a, In a l -> R a a) -> Forall2 R l l.
Proof.
  intros H. rewrite <- (map_id l) at 2. now apply Forall2_map_right.
Qed.

Lemma fetch_root_ids_rows_of (item : TreeItemCreate.t) (n : Z) :
  fetch_root_ids (rows_of item None n) = [n].
Proof.
  unfold fetch_root_ids. rewrite rows_of_eq. cbn [filter TreeNode.parent_id is_null].
  assert (E : filter (fun r => is_null (TreeNode.parent_id r))
                     (rows_of_all (kids item) n (n + 1)) = []).
  { pose proof (@rows_of_all_below (kids item) n (n + 1) ltac:(lia)) as Hb.
    induction Hb as [|r l [_ [q [Hq _]]] Hl IH]; simpl; [reflexivity|].
    now rewrite Hq. }
  rewrite E. reflexivity.
Qed.

(** C1.  The round trip is lost on PostgreSQL.  The [INSERT] of
    [insert_tree_recursive] has no [RETURNING], so there
    [database.execute] returns [None] where the function expects the
    id of the new row: the [root_id] of the response is [None], every
    child is inserted with [parent_id=None], and [retrieve_tree] (GET
    /api/tree) after [create_tree_item] (POST /api/tree) of the tree
    [root(a, b(c))] returns four childless roots in place of the one
    tree. *)
Theorem replace_then_get_on_postgresql :
  fst (create_tree_item sample_item postgres_db)
    = ("Tree replaced successfully", None) /\
  tree_items (snd (create_tree_item sample_item postgres_db))
    = [ TreeNode.mk 1 "root" None None; TreeNode.mk 2 "a" None None;
        TreeNode.mk 3 "b" None None; TreeNode.mk 4 "c" None None ] /\
  option_map (map shape_of_response)
    (retrieve_tree 3 (tree_items (snd (create_tree_item sample_item postgres_db))))
    = Some [ Shape "root" None []; Shape "a" None [];
             Shape "b" None []; Shape "c" None [] ] /\
  shape_of_item sample_item
    = Shape "root" None [Shape "a" None []; Shape "b" None [Shape "c" None []]].
Proof. repeat split. Qed.

(** C2.  The children query of [build_tree_recursive] and
    [delete_recursive] has no [ORDER BY]: on a table whose physical
    order is not the id order it returns the child ids in physical
    order, here [3] before [2], and GET /api/tree lists [b] before [a].
    The root query of the same table is in ascending order. *)
Theorem fetch_children_follows_physical_order :
  fetch_children 1 relocated_table = [3; 2] /\
  ~ Sorted Z.le (fetch_children 1 relocated_table) /\
  option_map (map shape_of_response) (retrieve_tree 2 relocated_table) =
    Some [Shape "root" None [Shape "b" None []; Shape "a" None []]] /\
  Sorted Z.le (fetch_root_ids relocated_table).
Proof.
  split; [reflexivity|]. split; [|split; [reflexivity | apply fetch_root_ids_sorted]].
  change (fetch_children 1 relocated_table) with [3; 2].
  intros H. inversion H as [|? ? _ Hhd]; subst.
  inversion Hhd as [|? ? Hle]; subst. lia.
Qed.

(** C3, as the claim states it, fails: the id [2 ^ 63], which no row
    has, is not answered with 404.  The driver cannot bind it to the
    existence check, the exception reaches the framework, and both
    routes answer 500. *)
Lemma unbindable_id_is_not_a_404 :
  ~ exists_in (tree_items sample_db) (2 ^ 63) /\
  update_tree_item_data (2 ^ 63) (TreeItemUpdate.mk "x") sample_db
    = (InternalServerError, sample_db) /\
  delete_tree_item 1 (2 ^ 63) sample_db
    = Some (InternalServerError, sample_db).
Proof.
  split; [|split; reflexivity].
  apply fetch_one_by_id_none. reflexivity.
Qed.

(** C3, amended.  NotFound.  For an id no row has,
    [update_tree_item_data] (PUT /api/tree/{id}/data) and
    [delete_tree_item] (DELETE /api/tree/{id}) hand the database back
    as it was: same table, same sequence, no write executed.  When the
    id is an integer of the id column (64 bits signed on SQLite, 32 on
    PostgreSQL) both raise the 404 [HTTPException]; when it is not,
    the existence check itself raises and both answer 500. *)
Theorem not_found_changes_nothing :
  forall (item_id : Z) (item : TreeItemUpdate.t) (db : database) (fuel : nat),
    ~ exists_in (tree_items db) item_id ->
    (bindable (engine db) item_id = true ->
     update_tree_item_data item_id item db
       = (HTTPException 404 "Item not found", db) /\
     delete_tree_item fuel item_id db
       = Some (HTTPException 404 "Item not found", db)) /\
    (bindable (engine db) item_id = false ->
     update_tree_item_data item_id item db = (InternalServerError, db) /\
     delete_tree_item fuel item_id db = Some (InternalServerError, db)).
Proof.
  intros item_id item db fuel H.
  rewrite (@update_tree_item_data_missing _ item _ H).
  rewrite (@delete_tree_item_missing fuel _ _ H).
  unfold missing. split; intros ->; now split.
Qed.

Lemma not_found_changes_nothing_witness :
  ~ exists_in (tree_items sample_db) 999 /\
  bindable (engine sample_db) 999 = true /\
  update_tree_item_data 999 (TreeItemUpdate.mk "x") sample_db
    = (HTTPException 404 "Item not found", sample_db) /\
  delete_tree_item 0 999 sample_db
    = Some (HTTPException 404 "Item not found", sample_db).
Proof.
  assert (H : ~ exists_in (tree_items sample_db) 999)
    by (apply fetch_one_by_id_none; reflexivity).
  split; [exact H|]. split; [reflexivity|].
  exact (proj1 (@not_found_changes_nothing 999 (TreeItemUpdate.mk "x")
                  sample_db 0 H) eq_refl).
Defined.

(** The table of [sample_db] satisfies the invariant and holds row 3. *)
Lemma sample_db_parent_before_child : parent_before_child (tree_items sample_db).
Proof.
  intros r p Hin Hpar. vm_compute in Hin.
  destruct Hin as [E|[E|[E|[E|[]]]]]; subst r; vm_compute in Hpar;
    inversion Hpar; subst; reflexivity.
Defined.

Lemma sample_db_has_3 : exists_in (tree_items sample_db) 3.
Proof.
  exists (TreeNode.mk 3 "b" None (Some 1)). split; [|reflexivity].
  vm_compute. auto.
Defined.

(** C4.  Deletion completeness.  On a table where parents precede
    their children (every table the service reaches), for an id that
    exists, [delete_tree_item] (DELETE /api/tree/{id}) finishes, given
    enough fuel, with the success response; afterwards
    [retrieve_all_items] (GET /api/tree/all) holds exactly the rows of
    before whose id is not in the subtree of that id: the node and all
    its descendants are gone, every other row is still there. *)
Theorem delete_removes_exactly_the_subtree :
  forall (db : database) (item_id : Z),
    parent_before_child (tree_items db) ->
    exists_in (tree_items db) item_id ->
    exists n, forall fuel, (n <= fuel)%nat ->
      exists db',
        delete_tree_item fuel item_id db
          = Some (Returned (item_id, "Item and children deleted successfully"), db') /\
        forall r,
          In r (retrieve_all_items (tree_items db')) <->
          In r (tree_items db) /\
          ~ in_subtree (tree_items db) item_id (TreeNode.id r).
Proof.
  intros db item_id Hpbc Hex.
  destruct (ids_bounded (tree_items db)) as [M HM].
  exists (S (Z.to_nat (M - item_id))). intros fuel Hfuel.
  destruct (@delete_recursive_total M fuel item_id db Hpbc HM ltac:(lia))
    as [db' [E _]].
  exists db'. rewrite (@delete_tree_item_found _ _ _ _ Hex E).
  split; [reflexivity|].
  intros r. unfold retrieve_all_items. rewrite in_order_by_id.
  apply subtrees_deleted_rows. eapply delete_recursive_deletes; eauto.
Qed.

Lemma delete_removes_exactly_the_subtree_witness :
  exists n, forall fuel, (n <= fuel)%nat ->
    exists db',
      delete_tree_item fuel 3 sample_db
        = Some (Returned (3, "Item and children deleted successfully"), db') /\
      forall r,
        In r (retrieve_all_items (tree_items db')) <->
        In r (tree_items sample_db) /\
        ~ in_subtree (tree_items sample_db) 3 (TreeNode.id r).
Proof.
  exact (@delete_removes_exactly_the_subtree sample_db 3
           sample_db_parent_before_child sample_db_has_3).
Defined.

(** C5.  ReplaceTree does not return the root id on PostgreSQL.  There
    [database.execute] returns [None] for the [INSERT], which has no
    [RETURNING]: for every input and every such database
    [create_tree_item] (POST /api/tree) answers with [root_id] [None],
    and, the [None] being handed on as [parent_id], the rows it leaves
    are the nodes of the input, in pre-order, every one of them with a
    null parent: the input is not stored as a tree. *)
Theorem replace_on_postgresql_returns_no_root_id :
  forall (item : TreeItemCreate.t) (db : database),
    engine db = PostgreSQL ->
    fst (create_tree_item item db) = ("Tree replaced successfully", None) /\
    map TreeNode.name (tree_items (snd (create_tree_item item db)))
      = names item /\
    forall r, In r (tree_items (snd (create_tree_item item db))) ->
              TreeNode.parent_id r = None.
Proof.
  intros item db He.
  destruct (create_tree_item_eq item db) as [Hfst [Ht _]].
  rewrite Hfst, Ht, He. cbn [returned].
  split; [reflexivity|]. split; [apply names_rows_under|].
  intros r Hin. now destruct (rows_under_postgresql _ _ _ _ Hin).
Qed.

Lemma replace_on_postgresql_returns_no_root_id_witness :
  engine postgres_db = PostgreSQL /\
  fst (create_tree_item sample_item postgres_db)
    = ("Tree replaced successfully", None) /\
  map TreeNode.name (tree_items (snd (create_tree_item sample_item postgres_db)))
    = names sample_item /\
  forall r, In r (tree_items (snd (create_tree_item sample_item postgres_db))) ->
            TreeNode.parent_id r = None.
Proof.
  split; [reflexivity|].
  exact (@replace_on_postgresql_returns_no_root_id sample_item postgres_db
           eq_refl).
Defined.

(** C6.  Post-order delete.  On a table where parents precede their
    children, for an id that exists, [delete_tree_item] finishes, given
    enough fuel, and its writes are a run of single-row deletes.  The
    ids they delete are the id and its descendants, all of them and no
    other, and the table afterwards is the table of before without the
    rows of these ids.  Every delete of the run hits an id that no row
    of the table, as it is at that moment, names as its parent; every
    row that named an id as its parent had its own id deleted earlier
    in the run than that id; and so had every descendant of the id, at
    any depth. *)
Theorem delete_is_post_order :
  forall (db : database) (item_id : Z),
    parent_before_child (tree_items db) ->
    exists_in (tree_items db) item_id ->
    exists n, forall fuel, (n <= fuel)%nat ->
      exists db' evs,
        delete_tree_item fuel item_id db
          = Some (Returned (item_id, "Item and children deleted successfully"), db') /\
        writes_since db db' evs /\
        childless_deletes (tree_items db) evs (tree_items db') /\
        (forall e1 x t e2 r,
          evs = e1 ++ (DELETE_BY_ID x, t) :: e2 ->
          In r (tree_items db) ->
          TreeNode.parent_id r = Some x ->
          In (TreeNode.id r) (removed e1)) /\
        (forall d, In d (removed evs) <-> in_subtree (tree_items db) item_id d) /\
        (forall r, In r (tree_items db') <->
                   In r (tree_items db) /\ ~ In (TreeNode.id r) (removed evs)) /\
        (forall e1 x t e2 d,
          evs = e1 ++ (DELETE_BY_ID x, t) :: e2 ->
          in_subtree (tree_items db) x d -> d <> x ->
          In d (removed e1)).
Proof.
  intros db item_id Hpbc Hex.
  destruct (ids_bounded (tree_items db)) as [M HM].
  exists (S (Z.to_nat (M - item_id))). intros fuel Hfuel.
  destruct (@delete_recursive_total M fuel item_id db Hpbc HM ltac:(lia))
    as [db' [E _]].
  pose proof (delete_recursive_deletes _ _ _ E)
    as [evs [Hj [_ [Hrun [Hsound [Hroot Hclosed]]]]]].
  exists db', evs. rewrite (@delete_tree_item_found _ _ _ _ Hex E).
  split; [reflexivity|]. split; [assumption|]. split; [assumption|].
  split; [|split; [|split]].
  - intros e1 x t e2 r Hsplit Hin Hpar. subst evs.
    destruct (childless_deletes_split _ _ _ _ Hrun) as [Ht Hfree].
    destruct (in_dec Z.eq_dec (TreeNode.id r) (removed e1)) as [Hr|Hr];
      [assumption|].
    exfalso. apply (Hfree r); [|assumption].
    rewrite Ht. apply in_without. now split.
  - eapply subtrees_deleted_ids; eauto.
  - intros r. rewrite (childless_deletes_result Hrun). apply in_without.
  - apply (childless_deletes_post_order Hrun).
Qed.

Lemma delete_is_post_order_witness :
  exists n, forall fuel, (n <= fuel)%nat ->
    exists db' evs,
      delete_tree_item fuel 3 sample_db
        = Some (Returned (3, "Item and children deleted successfully"), db') /\
      writes_since sample_db db' evs /\
      childless_deletes (tree_items sample_db) evs (tree_items db') /\
      (forall e1 x t e2 r,
        evs = e1 ++ (DELETE_BY_ID x, t) :: e2 ->
        In r (tree_items sample_db) ->
        TreeNode.parent_id r = Some x ->
        In (TreeNode.id r) (removed e1)) /\
      (forall d, In d (removed evs) <-> in_subtree (tree_items sample_db) 3 d) /\
      (forall r, In r (tree_items db') <->
                 In r (tree_items sample_db) /\
                 ~ In (TreeNode.id r) (removed evs)) /\
      (forall e1 x t e2 d,
        evs = e1 ++ (DELETE_BY_ID x, t) :: e2 ->
        in_subtree (tree_items sample_db) x d -> d <> x ->
        In d (removed e1)).
Proof.
  exact (@delete_is_post_order sample_db 3
           sample_db_parent_before_child sample_db_has_3).
Defined.

(** C7, as the claim states it, fails: a body whose name is the empty
    string validates, and the row is stored under the empty name. *)
Lemma empty_name_is_persisted :
  post_api_tree (JObject [("name", JString EmptyString)]) empty_db
  = (Returned ("Tree replaced successfully", Some 1),
     {| engine := SQLite false;
        tree_items := [TreeNode.mk 1 EmptyString None None];
        next_id := 1;
        journal := [(DELETE_ALL, []); (INSERT EmptyString None None, [])] |}).
Proof. reflexivity. Qed.

(** C7, amended.  A node's name is a string, which may be empty.  A
    body in which some node has no string for a name (the field is
    missing, [null] or of another type) is answered with 422 and the
    database is handed back as it was, no write executed.  A name that
    is a string is accepted whatever it is, the empty one included:
    the body with only that name is stored as one root row under it,
    and for every body that validates the stored names are the names
    of the input, in pre-order. *)
Theorem missing_name_is_rejected_any_string_kept :
  forall (body : json) (db : database),
    (lacks_name body ->
     post_api_tree body db = (HTTPException 422 "Unprocessable Entity", db)) /\
    (forall s,
        tree_items (snd (post_api_tree (JObject [("name", JString s)]) db))
        = [TreeNode.mk (first_id db) s None None]) /\
    (forall item,
        validate_TreeItemCreate body = Some item ->
        map TreeNode.name (tree_items (snd (post_api_tree body db)))
        = names item).
Proof.
  intros body db. split; [|split].
  - intros H. unfold post_api_tree. now rewrite (lacks_name_invalid H).
  - intros s.
    change (post_api_tree (JObject [("name", JString s)]) db)
      with (let (r, db1) := create_tree_item (leaf s) db in
            (@Returned (string * option Z) r, db1)).
    destruct (create_tree_item_eq (leaf s) db) as [_ [Ht _]].
    destruct (create_tree_item (leaf s) db) as [r db1]. cbn [snd] in *.
    rewrite Ht. now rewrite rows_under_eq.
  - intros item H. unfold post_api_tree. rewrite H.
    destruct (create_tree_item_eq item db) as [_ [Ht _]].
    destruct (create_tree_item item db) as [r db1]. cbn [snd] in *.
    rewrite Ht. apply names_rows_under.
Qed.

Lemma missing_name_is_rejected_any_string_kept_witness :
  lacks_name (JObject [("data", JString "x")]) /\
  post_api_tree (JObject [("data", JString "x")]) sample_db
  = (HTTPException 422 "Unprocessable Entity", sample_db).
Proof.
  assert (H : lacks_name (JObject [("data", JString "x")])).
  { apply lacks_name_here. intros s. simpl. discriminate. }
  split; [exact H|].
  exact (proj1 (missing_name_is_rejected_any_string_kept
                  (JObject [("data", JString "x")]) sample_db) H).
Defined.

(** C8.  Frame of the update.  For an id that exists,
    [update_tree_item_data] returns the success response, leaves the
    sequence alone, and the table it leaves holds the rows of the old
    one, row for row: every row keeps its id, name and parent_id, a
    row with the given id gets the new data, and a row with another id
    is unchanged.  On SQLite the rows also lie where they lay; on
    PostgreSQL the table holds the same rows in another order. *)
Theorem update_overwrites_only_data :
  forall (item_id : Z) (item : TreeItemUpdate.t) (db : database),
    exists_in (tree_items db) item_id ->
    fst (update_tree_item_data item_id item db)
      = Returned (item_id, TreeItemUpdate.data item, "Data updated successfully") /\
    next_id (snd (update_tree_item_data item_id item db)) = next_id db /\
    exists rows,
      Forall2
        (fun r r' =>
           TreeNode.id r' = TreeNode.id r /\
           TreeNode.name r' = TreeNode.name r /\
           TreeNode.parent_id r' = TreeNode.parent_id r /\
           (TreeNode.id r = item_id ->
            TreeNode.data r' = Some (TreeItemUpdate.data item)) /\
           (TreeNode.id r <> item_id -> r' = r))
        (tree_items db) rows /\
      Permutation rows (tree_items (snd (update_tree_item_data item_id item db))) /\
      (forall a, engine db = SQLite a ->
                 rows = tree_items (snd (update_tree_item_data item_id item db))).
Proof.
  intros item_id item db Hex.
  rewrite (@update_tree_item_data_found _ item _ Hex).
  cbn [fst snd execute_update_data tree_items next_id].
  split; [reflexivity|]. split; [reflexivity|].
  exists (map (set_data (TreeItemUpdate.data item) item_id) (tree_items db)).
  split; [|split].
  - apply Forall2_map_right. intros r _.
    destruct (set_data_fields (TreeItemUpdate.data item) item_id r)
      as [E1 [E2 E3]].
    repeat split; try assumption; unfold set_data.
    + intros E. apply Z.eqb_eq in E. now rewrite E.
    + intros E. apply Z.eqb_neq in E. now rewrite E.
  - apply updated_perm.
  - intros a ->. reflexivity.
Qed.

Lemma update_overwrites_only_data_witness :
  fst (update_tree_item_data 3 (TreeItemUpdate.mk "x") sample_db)
    = Returned (3, "x", "Data updated successfully") /\
  next_id (snd (update_tree_item_data 3 (TreeItemUpdate.mk "x") sample_db))
    = next_id sample_db /\
  exists rows,
    Forall2
      (fun r r' =>
         TreeNode.id r' = TreeNode.id r /\
         TreeNode.name r' = TreeNode.name r /\
         TreeNode.parent_id r' = TreeNode.parent_id r /\
         (TreeNode.id r = 3 -> TreeNode.data r' = Some "x") /\
         (TreeNode.id r <> 3 -> r' = r))
      (tree_items sample_db) rows /\
    Permutation rows
      (tree_items (snd (update_tree_item_data 3 (TreeItemUpdate.mk "x") sample_db))) /\
    (forall a, engine sample_db = SQLite a ->
               rows = tree_items
                        (snd (update_tree_item_data 3 (TreeItemUpdate.mk "x")
                                                    sample_db))).
Proof.
  exact (@update_overwrites_only_data 3 (TreeItemUpdate.mk "x") sample_db
           sample_db_has_3).
Defined.

(** C9.  The children field.  On a table where parents precede their
    children [retrieve_tree] finishes, given enough fuel; and in every
    tree it returns, on any table, every node, at any depth, has a
    children field that is never the empty list, and that is a
    non-empty list exactly when some row of the table names the node
    as its parent. *)
Theorem get_tree_children_field :
  forall (tbl : table),
    (parent_before_child tbl ->
     exists n, forall fuel, (n <= fuel)%nat ->
                            exists trees, retrieve_tree fuel tbl = Some trees) /\
    (forall fuel trees t u,
        retrieve_tree fuel tbl = Some trees ->
        In t trees ->
        occurs_in t u ->
        children_as_stored tbl u).
Proof.
  intros tbl. split; [apply retrieve_tree_total|].
  intros fuel trees t u Hret Hin Hu. unfold retrieve_tree in Hret.
  destruct (fetch_root_ids tbl) as [|i ids] eqn:E.
  - inversion Hret; subst. contradiction.
  - destruct (collect_in _ _ Hret t Hin) as [j [_ Hb]].
    eapply build_tree_recursive_children; eauto.
Qed.

Lemma get_tree_children_field_witness :
  (exists n, forall fuel, (n <= fuel)%nat ->
             exists trees, retrieve_tree fuel (tree_items sample_db) = Some trees) /\
  children_as_stored (tree_items sample_db)
                     (TreeItemResponse.mk 2 "a" None (Some 1) None).
Proof.
  split.
  - exact (proj1 (get_tree_children_field (tree_items sample_db))
                 sample_db_parent_before_child).
  - refine (proj2 (get_tree_children_field (tree_items sample_db))
                  3%nat _ _ _ eq_refl (or_introl eq_refl) _).
    eapply occurs_below; [|apply occurs_here].
    simpl. left. reflexivity.
Defined.

(** C10.  The update body.  A body whose [data] is not a string (the
    field is missing, [null] or of another type, or the body is no
    object) is answered with 422 and the database is handed back as it
    was.  Whatever the body, the table after the request holds the
    rows of the old one, row for row (on SQLite in their places), and a
    row whose data is null after it is a row that was left as it
    was: the route never sets a data field to null. *)
Theorem update_body_requires_string_data :
  forall (item_id : Z) (body : json) (db : database),
    ((forall s, field "data" body <> Some (JString s)) ->
     put_api_tree_data item_id body db
     = (HTTPException 422 "Unprocessable Entity", db)) /\
    exists rows,
      Forall2
        (fun r r' =>
           TreeNode.id r' = TreeNode.id r /\
           (TreeNode.data r' = None -> r' = r))
        (tree_items db) rows /\
      Permutation rows (tree_items (snd (put_api_tree_data item_id body db))) /\
      (forall a, engine db = SQLite a ->
                 rows = tree_items (snd (put_api_tree_data item_id body db))).
Proof.
  intros item_id body db. split.
  - intros H. unfold put_api_tree_data, validate_TreeItemUpdate.
    destruct body as [| | | | |fields]; try reflexivity.
    unfold field in H.
    destruct (get "data" fields) as [[| | |s| |]|]; try reflexivity.
    exfalso. now apply (H s).
  - assert (Hsame : exists rows,
               Forall2
                 (fun r r' =>
                    TreeNode.id r' = TreeNode.id r /\
                    (TreeNode.data r' = None -> r' = r))
                 (tree_items db) rows /\
               Permutation rows (tree_items db) /\
               (forall a : bool, engine db = SQLite a -> rows = tree_items db)).
    { exists (tree_items db). split; [|split; [apply Permutation_refl | auto]].
      apply Forall2_same. now split. }
    unfold put_api_tree_data.
    destruct (validate_TreeItemUpdate body) as [item|]; [|exact Hsame].
    destruct (update_tree_item_data_table item_id item db) as [Ht _].
    rewrite Ht.
    destruct (fetch_one_by_id item_id (tree_items db)); [|exact Hsame].
    exists (map (set_data (TreeItemUpdate.data item) item_id) (tree_items db)).
    split; [|split].
    + apply Forall2_map_right. intros r _. unfold set_data.
      destruct (TreeNode.id r =? item_id); simpl; split; auto. discriminate.
    + apply updated_perm.
    + intros a ->. reflexivity.
Qed.

Lemma update_body_requires_string_data_witness :
  (forall s, field "data" (JObject [("data", JNull)]) <> Some (JString s)) /\
  put_api_tree_data 3 (JObject [("data", JNull)]) sample_db
  = (HTTPException 422 "Unprocessable Entity", sample_db).
Proof.
  assert (H : forall s, field "data" (JObject [("data", JNull)]) <> Some (JString s)).
  { intros s. simpl. discriminate. }
  split; [exact H|].
  exact (proj1 (update_body_requires_string_data 3 (JObject [("data", JNull)])
                                                 sample_db) H).
Defined.

End Claims.

(** ** The configuration *)

Section Configuration.

Lemma prefix_skip (p s : string) :
  prefix p s = true -> s = (p ++ skip (String.length p) s)%string.
Proof.
  revert s. induction p as [|a p IH]; intros s H; [reflexivity|].
  destruct s as [|b s]; [discriminate|]. simpl in H.
  destruct (ascii_dec a b) as [E|E]; [|discriminate].
  subst b. simpl. f_equal. now apply IH.
Qed.

Lemma prefix_app (p rest : string) : prefix p (p ++ rest)%string = true.
Proof.
  induction p as [|a p IH]; [now destruct rest|].
  simpl. destruct (ascii_dec a a) as [_|E]; [exact IH | now elim E].
Qed.

Lemma skip_app (p rest : string) : skip (String.length p) (p ++ rest)%string = rest.
Proof. induction p as [|a p IH]; [reflexivity | exact IH]. Qed.

Lemma replace_first_at_prefix (old new s : string) :
  prefix old s = true ->
  replace_first old new s = (new ++ skip (String.length old) s)%string.
Proof.
  intros H. destruct s; cbn [replace_first]; now rewrite H.
Qed.

(** X1.  Whatever the environment holds, [DATABASE_URL] does not start
    with [postgres://], and feeding it back as the value of the
    variable gives the same url: the fix is done once and for all. *)
Theorem database_url_is_normalised :
  forall env_value : option string,
    prefix "postgres://" (DATABASE_URL env_value) = false /\
    DATABASE_URL (Some (DATABASE_URL env_value)) = DATABASE_URL env_value.
Proof.
  intros env_value.
  assert (H : prefix "postgres://" (DATABASE_URL env_value) = false).
  { unfold DATABASE_URL.
    destruct (prefix "postgres://" (getenv env_value "sqlite:///./test.db")) eqn:E;
      [|exact E].
    rewrite (replace_first_at_prefix _ _ _ E). reflexivity. }
  split; [exact H|].
  unfold DATABASE_URL at 1. cbn [getenv]. now rewrite H.
Qed.

(** X2.  A url that starts with [postgres://] comes out with the scheme
    [postgresql://] and everything after the scheme untouched, later
    occurrences of [postgres://] included; a url that does not start
    with it comes out as it is; with the variable unset the url is the
    sqlite file [sqlite:///./test.db]. *)
Theorem database_url_rewrites_only_the_scheme :
  (forall rest : string,
      DATABASE_URL (Some ("postgres://" ++ rest)%string)
      = ("postgresql://" ++ rest)%string) /\
  (forall url : string,
      prefix "postgres://" url = false -> DATABASE_URL (Some url) = url) /\
  DATABASE_URL None = "sqlite:///./test.db".
Proof.
  split; [|split].
  - intros rest. unfold DATABASE_URL. cbn [getenv].
    pose proof (prefix_app "postgres://" rest) as E.
    rewrite E, (replace_first_at_prefix _ _ _ E). now rewrite skip_app.
  - intros url H. unfold DATABASE_URL. cbn [getenv]. now rewrite H.
  - reflexivity.
Qed.

Lemma database_url_rewrites_only_the_scheme_witness :
  prefix "postgres://" "postgresql://u@h/db" = false /\
  DATABASE_URL (Some "postgresql://u@h/db") = "postgresql://u@h/db".
Proof.
  assert (H : prefix "postgres://" "postgresql://u@h/db" = false) by reflexivity.
  split; [exact H|].
  exact (proj1 (proj2 database_url_rewrites_only_the_scheme) _ H).
Defined.

Lemma split_not_nil (sep : ascii) (s : string) : split sep s <> [].
Proof.
  destruct s as [|c s]; simpl; [discriminate|].
  destruct (Ascii.eqb c sep); [discriminate|].
  destruct (split sep s); discriminate.
Qed.

Lemma concat_cons (sep x : string) (l : list string) :
  l <> [] -> String.concat sep (x :: l) = (x ++ sep ++ String.concat sep l)%string.
Proof. destruct l; [contradiction | reflexivity]. Qed.

Lemma concat_split (sep : ascii) (s : string) :
  String.concat (String sep EmptyString) (split sep s) = s.
Proof.
  induction s as [|c s IH]; [reflexivity|].
  cbn [split]. pose proof (split_not_nil sep s) as Hne.
  destruct (Ascii.eqb c sep) eqn:E.
  - apply Ascii.eqb_eq in E. subst c.
    rewrite (concat_cons _ _ Hne), IH. reflexivity.
  - destruct (split sep s) as [|part parts]; [contradiction|].
    destruct parts as [|part' parts].
    + cbn [String.concat] in *. now rewrite IH.
    + rewrite concat_cons by discriminate.
      rewrite concat_cons in IH by discriminate.
      rewrite <- IH. reflexivity.
Qed.

(** X3.  [ALLOWED_ORIGINS] loses nothing of the variable: joining the
    origins with commas gives back the value (the default [*] when the
    variable is unset), so no origin is trimmed, dropped or merged. *)
Theorem allowed_origins_join_back :
  forall env_value : option string,
    String.concat "," (ALLOWED_ORIGINS env_value) = getenv env_value "*".
Proof. intros env_value. apply concat_split. Qed.

(** X4.  [ALLOWED_ORIGINS] has one origin more than the value has
    commas, hence at least one, and no origin contains a comma; an
    empty value gives the one empty origin. *)
Theorem allowed_origins_parts :
  forall env_value : option string,
    List.length (ALLOWED_ORIGINS env_value)
    = S (count_char "," (getenv env_value "*")) /\
    (forall origin, In origin (ALLOWED_ORIGINS env_value) ->
                    ~ occurs "," origin) /\
    ALLOWED_ORIGINS (Some EmptyString) = [EmptyString].
Proof.
  intros env_value. unfold ALLOWED_ORIGINS.
  generalize (getenv env_value "*"). intros s.
  split; [|split; [|reflexivity]].
  - induction s as [|c s IH]; [reflexivity|].
    cbn [split count_char]. destruct (Ascii.eqb c ","); simpl.
    + now rewrite IH.
    + destruct (split "," s); [discriminate | exact IH].
  - induction s as [|c s IH]; intros origin Hin.
    + destruct Hin as [E|[]]. subst. simpl. tauto.
    + cbn [split] in Hin. destruct (Ascii.eqb c ",") eqn:E.
      * destruct Hin as [E'|Hin]; [subst; simpl; tauto | now apply IH].
      * apply Ascii.eqb_neq in E.
        destruct (split "," s) as [|part parts].
        -- destruct Hin as [E'|[]]. subst. simpl. tauto.
        -- destruct Hin as [E'|Hin].
           ++ subst origin. simpl. intros [H|H]; [contradiction|].
              apply (IH part); [now left | exact H].
           ++ apply IH. now right.
Qed.

Lemma allowed_origins_parts_witness : ~ occurs "," "a".
Proof.
  apply (proj1 (proj2 (allowed_origins_parts (Some "a,b"))) "a").
  simpl. left. reflexivity.
Defined.

End Configuration.

(** ** More on the reads *)

Section Reads.

Lemma forest_induction (tbl : table) (P : Row -> Prop) :
  parent_before_child tbl ->
  parents_exist tbl ->
  (forall r, In r tbl -> TreeNode.parent_id r = None -> P r) ->
  (forall r rp, In r tbl -> In rp tbl ->
                TreeNode.parent_id r = Some (TreeNode.id rp) -> P rp -> P r) ->
  forall r, In r tbl -> P r.
Proof.
  intros Hpbc Hpe Hroot Hstep.
  destruct (ids_bounded_below tbl) as [m Hm].
  assert (H : forall (k : nat) r,
             In r tbl -> TreeNode.id r - m < Z.of_nat k -> P r).
  { induction k as [|k IH]; intros r Hin Hk.
    - specialize (Hm r Hin). lia.
    - destruct (TreeNode.parent_id r) as [p|] eqn:Hpar; [|now apply Hroot].
      destruct (Hpe r p Hin Hpar) as [rp [Hinp Hidp]].
      apply (Hstep r rp Hin Hinp); [now rewrite Hidp|].
      apply IH; [assumption|]. specialize (Hpbc r p Hin Hpar). lia. }
  intros r Hin. apply (H (S (Z.to_nat (TreeNode.id r - m))) r Hin). lia.
Qed.

Lemma NoDup_ids_same_row (tbl : table) (r r' : Row) :
  NoDup (map TreeNode.id tbl) -> In r tbl -> In r' tbl ->
  TreeNode.id r = TreeNode.id r' -> r = r'.
Proof.
  induction tbl as [|x tbl IH]; simpl; intros Hnd Hr Hr' E; [contradiction|].
  inversion Hnd as [|? ? Hnot Hnd']; subst.
  destruct Hr as [Hr|Hr], Hr' as [Hr'|Hr'].
  - congruence.
  - subst x. exfalso. apply Hnot. rewrite E. now apply in_map.
  - subst x. exfalso. apply Hnot. rewrite <- E. now apply in_map.
  - now apply IH.
Qed.

Lemma occurs_in_child (t u c : TreeItemResponse.t) :
  occurs_in t u -> In c (response_kids u) -> occurs_in t c.
Proof.
  induction 1 as [t | t c' u Hc' Hcu IH]; intros Hin.
  - eapply occurs_below; [exact Hin | constructor].
  - eapply occurs_below; [exact Hc' | now apply IH].
Qed.

(** A node that was built shows a row of the table with the id asked
    for. *)
Lemma build_tree_recursive_shows (fuel : nat) (tbl : table) (x : Z)
      (t : TreeItemResponse.t) :
  build_tree_recursive fuel tbl x = Some (Some t) ->
  exists r, In r tbl /\ TreeNode.id r = x /\ shows t r.
Proof.
  intros H. apply build_tree_recursive_some in H.
  destruct H as [fuel' [node [built [_ [Hnode [_ Ht]]]]]].
  apply fetch_one_by_id_some in Hnode. destruct Hnode as [Hin Hid].
  exists node. subst t. unfold shows. simpl. repeat split; auto.
Qed.

Lemma build_tree_recursive_existing (fuel : nat) (tbl : table) (x : Z)
      (o : option TreeItemResponse.t) :
  exists_in tbl x ->
  build_tree_recursive fuel tbl x = Some o ->
  exists t, o = Some t /\ TreeItemResponse.id t = x.
Proof.
  intros Hex H. destruct o as [t|].
  - exists t. split; [reflexivity|].
    destruct (build_tree_recursive_shows _ _ _ H) as [r [_ [Hid [Hs _]]]].
    congruence.
  - apply build_tree_recursive_none in H. contradiction.
Qed.

Lemma collect_ids (A : Type) (build : Z -> option (option A)) (f : A -> Z)
      (ids : list Z) :
  (forall i o, In i ids -> build i = Some o -> exists c, o = Some c /\ f c = i) ->
  forall l, collect build ids = Some l -> map f l = ids.
Proof.
  induction ids as [|i ids IH]; simpl; intros Hb l H.
  - now inversion H.
  - destruct (build i) as [o|] eqn:Ei; [|discriminate].
    destruct (collect build ids) as [rest|] eqn:Er; [|discriminate].
    destruct (Hb i o (or_introl eq_refl) Ei) as [c [Eo Ec]]. subst o.
    inversion H; subst. simpl. f_equal.
    apply IH; [|reflexivity]. intros j o Hj. apply Hb. now right.
Qed.

(** X5.  GET /api/tree/all on any table: every row of the table exactly
    once, in ascending id order whatever the physical order. *)
Theorem retrieve_all_items_sorts_the_table :
  forall tbl : table,
    Permutation tbl (retrieve_all_items tbl) /\
    Sorted id_le (retrieve_all_items tbl).
Proof.
  intros tbl. split; [apply order_by_id_perm | apply order_by_id_sorted].
Qed.

(** X6.  GET /api/tree on any table: whenever it returns, the trees it
    returns are, in this order, those of the ids of the root query,
    one tree for every row with a null parent, in ascending id order. *)
Theorem retrieve_tree_lists_the_roots :
  forall (fuel : nat) (tbl : table) (trees : list TreeItemResponse.t),
    retrieve_tree fuel tbl = Some trees ->
    map TreeItemResponse.id trees = fetch_root_ids tbl /\
    Sorted Z.le (map TreeItemResponse.id trees) /\
    (forall x, In x (map TreeItemResponse.id trees) <->
               exists r, In r tbl /\ TreeNode.parent_id r = None /\
                         TreeNode.id r = x).
Proof.
  intros fuel tbl trees H.
  assert (E : map TreeItemResponse.id trees = fetch_root_ids tbl).
  { unfold retrieve_tree in H.
    destruct (fetch_root_ids tbl) as [|i ids] eqn:Er.
    - now inversion H.
    - eapply collect_ids; [|exact H].
      intros j o Hj Hb. eapply build_tree_recursive_existing; [|exact Hb].
      rewrite <- Er in Hj. apply in_fetch_root_ids in Hj.
      destruct Hj as [r [Hin [_ Hid]]]. now exists r. }
  rewrite E. split; [reflexivity|].
  split; [apply fetch_root_ids_sorted|].
  intros x. apply in_fetch_root_ids.
Qed.

Lemma retrieve_tree_lists_the_roots_witness :
  map TreeItemResponse.id
      [TreeItemResponse.mk 1 "root" None None None;
       TreeItemResponse.mk 2 "other" None None None]
  = fetch_root_ids [TreeNode.mk 2 "other" None None; TreeNode.mk 1 "root" None None].
Proof.
  exact (proj1 (@retrieve_tree_lists_the_roots
                  1 [TreeNode.mk 2 "other" None None; TreeNode.mk 1 "root" None None]
                  _ eq_refl)).
Defined.

(** X7.  GET /api/tree invents nothing: every node of every tree it
    returns, at any depth, carries the id, name, data and parent_id of
    a row of the table. *)
Theorem retrieve_tree_shows_rows :
  forall (fuel : nat) (tbl : table) (trees : list TreeItemResponse.t)
         (t u : TreeItemResponse.t),
    retrieve_tree fuel tbl = Some trees ->
    In t trees ->
    occurs_in t u ->
    exists r, In r tbl /\ shows u r.
Proof.
  intros fuel tbl trees t u Hret Hin Hu.
  assert (Hb : exists x fuel', build_tree_recursive fuel' tbl x = Some (Some t)).
  { unfold retrieve_tree in Hret.
    destruct (fetch_root_ids tbl) as [|i ids].
    - inversion Hret; subst. contradiction.
    - destruct (collect_in _ _ Hret t Hin) as [j [_ Hj]]. now exists j, fuel. }
  destruct Hb as [x [fuel' Hb]]. clear Hret Hin.
  revert x t Hb u Hu. induction fuel' as [|fuel' IH]; intros x t Hb u Hu;
    [discriminate|].
  inversion Hu as [|c u' Hc Hcu]; subst.
  - destruct (build_tree_recursive_shows _ _ _ Hb) as [r [Hr [_ Hs]]].
    now exists r.
  - apply build_tree_recursive_some in Hb.
    destruct Hb as [f [node [built [Hf [_ [Hcol Ht]]]]]].
    inversion Hf; subst f.
    assert (Hkids : response_kids t = built).
    { subst t. unfold response_kids. simpl. now destruct built. }
    rewrite Hkids in Hc.
    destruct (collect_in _ _ Hcol c Hc) as [i [_ Hbi]].
    eapply IH; eauto.
Qed.

Lemma retrieve_tree_shows_rows_witness :
  exists r, In r (tree_items sample_db) /\
            shows (TreeItemResponse.mk 4 "c" None (Some 3) None) r.
Proof.
  refine (@retrieve_tree_shows_rows 3 (tree_items sample_db) _ _ _
            eq_refl (or_introl eq_refl) _).
  eapply occurs_below; [simpl; right; left; reflexivity|].
  eapply occurs_below; [simpl; left; reflexivity|].
  apply occurs_here.
Defined.

(** X8.  GET /api/tree loses nothing on a well-formed table.  When ids
    are unique, every parent id is the id of a row and parents precede
    their children, the read finishes, given enough fuel, and every row
    of the table is shown by a node of one of the trees returned. *)
Theorem retrieve_tree_shows_every_row :
  forall tbl : table,
    NoDup (map TreeNode.id tbl) ->
    parents_exist tbl ->
    parent_before_child tbl ->
    exists n, forall fuel, (n <= fuel)%nat ->
      exists trees,
        retrieve_tree fuel tbl = Some trees /\
        forall r, In r tbl ->
                  exists t u, In t trees /\ occurs_in t u /\ shows u r.
Proof.
  intros tbl Hnd Hpe Hpbc.
  destruct (retrieve_tree_total Hpbc) as [n Hn].
  exists n. intros fuel Hfuel. destruct (Hn fuel Hfuel) as [trees Hret].
  exists trees. split; [assumption|].
  assert (H : forall r, In r tbl ->
            exists t u fuel',
              In t trees /\ occurs_in t u /\
              build_tree_recursive fuel' tbl (TreeNode.id r) = Some (Some u)).
  { apply forest_induction; try assumption.
    - intros r Hin Hpar.
      assert (Hroot : In (TreeNode.id r) (fetch_root_ids tbl))
        by (apply in_fetch_root_ids; now exists r).
      unfold retrieve_tree in Hret.
      destruct (fetch_root_ids tbl) as [|i ids] eqn:Er; [contradiction|].
      destruct (collect_finished _ _ Hret _ Hroot) as [o Ho].
      destruct (@build_tree_recursive_existing fuel tbl (TreeNode.id r) o)
        as [t [Eo _]]; [now exists r | assumption |].
      subst o. exists t, t, fuel. split; [|split; [constructor | assumption]].
      eapply collect_keeps; eauto.
    - intros r rp Hin Hinp Hpar [t [u [fuel' [Ht [Hu Hb]]]]].
      apply build_tree_recursive_some in Hb.
      destruct Hb as [f [node [built [Hf [_ [Hcol Eu]]]]]].
      assert (Hkids : response_kids u = built).
      { subst u. unfold response_kids. simpl. now destruct built. }
      assert (Hc : In (TreeNode.id r) (fetch_children (TreeNode.id rp) tbl))
        by (apply in_fetch_children; now exists r).
      destruct (collect_finished _ _ Hcol _ Hc) as [o Ho].
      destruct (@build_tree_recursive_existing f tbl (TreeNode.id r) o)
        as [c [Eo _]]; [now exists r | assumption |].
      subst o. exists t, c, f. split; [assumption|]. split; [|assumption].
      eapply occurs_in_child; [exact Hu|].
      rewrite Hkids. eapply collect_keeps; eauto. }
  intros r Hin. destruct (H r Hin) as [t [u [fuel' [Ht [Hu Hb]]]]].
  exists t, u. split; [assumption|]. split; [assumption|].
  destruct (build_tree_recursive_shows _ _ _ Hb) as [r' [Hin' [Hid Hs]]].
  now rewrite (@NoDup_ids_same_row tbl r r' Hnd Hin Hin' (eq_sym Hid)).
Qed.

End Reads.

(** ** More on the writes *)

Section Writes.

Lemma order_by_id_ascending (l : table) :
  forall n, map TreeNode.id l = ids_from n (List.length l) -> order_by_id l = l.
Proof.
  induction l as [|r l IH]; intros n H; [reflexivity|].
  cbn [map List.length ids_from] in H. injection H as Hid Hrest.
  cbn [order_by_id]. rewrite (IH (n + 1) Hrest).
  destruct l as [|x l]; [reflexivity|].
  cbn [map List.length ids_from] in Hrest. injection Hrest as Hx _.
  cbn [insert_by_id].
  destruct (TreeNode.id r <? TreeNode.id x) eqn:E; [reflexivity|].
  apply Z.ltb_ge in E. lia.
Qed.

Lemma assigned_id_above (db : database) :
  (engine db = PostgreSQL -> ids_below_next db) ->
  forall r, In r (tree_items db) -> TreeNode.id r < assigned_id db.
Proof.
  intros Hseq r Hr. unfold assigned_id.
  pose proof (new_rowid_above _ _ Hr) as Hnew.
  destruct (engine db) as [[|]|]; [lia | lia |].
  exact (Hseq eq_refl r Hr).
Qed.

(** X9.  [insert_tree_recursive] on any database, under any parent.  It
    returns what the insert of its first row returned: the id of that
    row on SQLite, [None] on PostgreSQL.  It only appends to the
    table; the rows it appends are one per node of the input, with the
    names of the input in pre-order, the first of them the input's root
    under the given parent, and they carry consecutive ids from the id
    the engine assigns next.  These ids are beyond every id of the
    table, on PostgreSQL provided its sequence is. *)
Theorem insert_tree_recursive_appends :
  forall (item : TreeItemCreate.t) (parent_id : option Z) (db : database),
    fst (insert_tree_recursive item parent_id db)
    = returned (engine db) (assigned_id db) /\
    exists added : table,
      tree_items (snd (insert_tree_recursive item parent_id db))
      = tree_items db ++ added /\
      hd_error added
      = Some (TreeNode.mk (assigned_id db) (TreeItemCreate.name item)
                          (TreeItemCreate.data item) parent_id) /\
      map TreeNode.id added = ids_from (assigned_id db) (List.length added) /\
      Z.of_nat (List.length added) = size item /\
      map TreeNode.name added = names item /\
      ((engine db = PostgreSQL -> ids_below_next db) ->
       forall r r', In r (tree_items db) -> In r' added ->
                    TreeNode.id r < TreeNode.id r').
Proof.
  intros item parent_id db.
  destruct (insert_tree_recursive_spec item parent_id db) as [H1 [H2 _]].
  destruct (rows_under_consecutive (engine db) item parent_id (assigned_id db))
    as [H4 H5].
  split; [assumption|].
  exists (rows_under (engine db) item parent_id (assigned_id db)).
  split; [assumption|]. split; [now rewrite rows_under_eq|].
  split; [assumption|]. split; [assumption|].
  split; [apply names_rows_under|].
  intros Hseq r r' Hr Hr'. apply rows_under_ids in Hr'.
  pose proof (assigned_id_above Hseq _ Hr). lia.
Qed.

Lemma insert_tree_recursive_appends_witness :
  exists added : table,
    tree_items (snd (insert_tree_recursive (leaf "d") (Some 1) sample_db))
    = tree_items sample_db ++ added /\
    forall r r', In r (tree_items sample_db) -> In r' added ->
                 TreeNode.id r < TreeNode.id r'.
Proof.
  destruct (insert_tree_recursive_appends (leaf "d") (Some 1) sample_db)
    as [_ [added [H1 [_ [_ [_ [_ H6]]]]]]].
  exists added. split; [exact H1|].
  apply H6. discriminate.
Defined.

(** X10.  POST /api/tree followed by GET /api/tree/all: the flat list is
    the table as the insert left it, the nodes of the input in
    pre-order, with their names, numbered consecutively from the id of
    the first row of an emptied table; the [root_id] of the response
    is that id on SQLite and [None] on PostgreSQL. *)
Theorem replace_then_flat_is_preorder :
  forall (item : TreeItemCreate.t) (db : database),
    let flat := retrieve_all_items (tree_items (snd (create_tree_item item db))) in
    flat = tree_items (snd (create_tree_item item db)) /\
    map TreeNode.name flat = names item /\
    map TreeNode.id flat = ids_from (first_id db) (List.length flat) /\
    Z.of_nat (List.length flat) = size item /\
    snd (fst (create_tree_item item db))
    = match engine db with
      | SQLite _ => Some (first_id db)
      | PostgreSQL => None
      end.
Proof.
  intros item db flat. subst flat.
  destruct (create_tree_item_eq item db) as [Hfst [Ht _]].
  destruct (rows_under_consecutive (engine db) item None (first_id db))
    as [H1 H2].
  rewrite Ht, Hfst. cbn [fst snd]. unfold retrieve_all_items.
  rewrite (@order_by_id_ascending _ _ H1).
  repeat split; try assumption. apply names_rows_under.
Qed.

Lemma NoDup_map_filter (A B : Type) (f : A -> B) (g : A -> bool) (l : list A) :
  NoDup (map f l) -> NoDup (map f (filter g l)).
Proof.
  induction l as [|a l IH]; simpl; intros H; [constructor|].
  inversion H as [|? ? Hnot Hnd]; subst.
  destruct (g a); [|now apply IH].
  simpl. constructor; [|now apply IH].
  intros Hin. apply Hnot. apply in_map_iff in Hin.
  destruct Hin as [b [E Hb]]. apply filter_In in Hb.
  apply in_map_iff. exists b. tauto.
Qed.

(** X11.  What every state the service reaches keeps, over and above
    parents preceding children: the ids of the table are pairwise
    distinct, and every parent id is the id of a row of the table, so
    that no write of the service leaves an orphan. *)
Theorem reachable_keys_and_references :
  forall db : database,
    reachable db ->
    NoDup (map TreeNode.id (tree_items db)) /\
    parents_exist (tree_items db).
Proof.
  induction 1 as [e | db item Hr [Hnd Hpe] | db item_id item Hr [Hnd Hpe]
                  | db fuel item_id out db' Hr [Hnd Hpe] Hd].
  - split; [constructor | intros r p []].
  - destruct (create_tree_item_eq item db) as [_ [Ht _]]. rewrite Ht.
    split; [|apply rows_under_parents_exist].
    destruct (rows_under_consecutive (engine db) item None (first_id db))
      as [Hids _].
    rewrite Hids. apply NoDup_ids_from.
  - destruct (update_tree_item_data_table item_id item db) as [Ht _].
    rewrite Ht.
    destruct (fetch_one_by_id item_id (tree_items db)); [|now split].
    split.
    + eapply Permutation_NoDup; [apply map_id_updated | assumption].
    + intros r p Hin Hpar. apply in_updated in Hin.
      destruct Hin as [r0 [Hin E]]. subst r.
      destruct (set_data_fields (TreeItemUpdate.data item) item_id r0)
        as [_ [_ E3]].
      rewrite E3 in Hpar. destruct (Hpe r0 p Hin Hpar) as [rp [Hrp Hidp]].
      exists (set_data (TreeItemUpdate.data item) item_id rp).
      split; [apply in_updated; now exists rp|].
      now destruct (set_data_fields (TreeItemUpdate.data item) item_id rp)
        as [-> _].
  - destruct (delete_tree_item_cases _ _ _ Hd) as [->|[_ E]]; [now split|].
    pose proof (subtrees_deleted_rows E) as Hrows.
    destruct E as [evs [_ [_ [Hrun _]]]].
    split.
    + rewrite (childless_deletes_result Hrun). unfold without.
      now apply NoDup_map_filter.
    + intros r p Hin Hpar. apply Hrows in Hin. destruct Hin as [Hin Hout].
      destruct (Hpe r p Hin Hpar) as [rp [Hrp Hidp]].
      exists rp. split; [|assumption]. apply Hrows. split; [assumption|].
      intros Hsub. apply Hout. rewrite Hidp in Hsub.
      eapply subtree_child; eauto.
Qed.

Lemma sample_db_reachable : reachable sample_db.
Proof. exact (reach_create sample_item (reach_startup (SQLite false))). Defined.

Lemma reachable_keys_and_references_witness :
  NoDup (map TreeNode.id (tree_items sample_db)) /\
  parents_exist (tree_items sample_db).
Proof. exact (reachable_keys_and_references sample_db_reachable). Defined.

(** X21.  Round trip on SQLite.  There [database.execute] returns the
    id of the inserted row, and after [create_tree_item item] (POST
    /api/tree) on any database [retrieve_tree] (GET /api/tree), run
    with fuel for the height of the input, returns exactly one tree.
    That tree has the shape of the input: the same names and data, the
    same children in the same order (an absent and an empty [children]
    both read back as no children).  Its ids are the freshly assigned
    ones: the root has the returned [root_id] and no parent, and every
    child carries the id of the node it hangs under. *)
Theorem replace_then_get_round_trip :
  forall (item : TreeItemCreate.t) (db : database) (fuel : nat) (a : bool),
    engine db = SQLite a ->
    (depth item <= fuel)%nat ->
    exists t,
      retrieve_tree fuel (tree_items (snd (create_tree_item item db))) = Some [t] /\
      shape_of_response t = shape_of_item item /\
      linked t /\
      snd (fst (create_tree_item item db)) = Some (TreeItemResponse.id t) /\
      TreeItemResponse.parent_id t = None.
Proof.
  intros item db fuel a He Hfuel.
  destruct (create_tree_item_eq item db) as [Hfst [Ht _]].
  rewrite Ht, Hfst, He, rows_under_sqlite. cbn [fst snd returned].
  exists (response_of item None (first_id db)).
  split; [|split; [|split; [|split]]].
  - unfold retrieve_tree. rewrite fetch_root_ids_rows_of. cbn [collect].
    pose proof (@build_tree_recursive_rows_of item None (first_id db) [] [] fuel)
      as Hb.
    cbn [app] in Hb. rewrite app_nil_r in Hb.
    rewrite Hb; auto. discriminate.
  - apply shape_of_response_of.
  - apply linked_response_of.
  - now rewrite response_of_eq.
  - now rewrite response_of_eq.
Qed.

Lemma replace_then_get_round_trip_witness :
  engine empty_db = SQLite false /\
  (depth sample_item <= 3)%nat /\
  exists t,
    retrieve_tree 3 (tree_items (snd (create_tree_item sample_item empty_db)))
      = Some [t] /\
    shape_of_response t = shape_of_item sample_item /\
    linked t /\
    snd (fst (create_tree_item sample_item empty_db))
      = Some (TreeItemResponse.id t) /\
    TreeItemResponse.parent_id t = None.
Proof.
  assert (H : (depth sample_item <= 3)%nat) by (simpl; lia).
  split; [reflexivity|]. split; [exact H|].
  exact (@replace_then_get_round_trip sample_item empty_db 3 false eq_refl H).
Defined.

(** X22.  ReplaceTree on every engine.  The first write of
    [create_tree_item] (POST /api/tree) is the [DELETE FROM tree_items]
    on the table as it was, and all its other writes are inserts.  The
    table it leaves holds one row per node of the input and nothing
    else: the first row is the root of the input with a null parent,
    the names are those of the input in pre-order, and the ids are
    consecutive.  On SQLite the rows are the input as a tree, every
    node under its parent. *)
Theorem replace_tree_clears_then_inserts :
  forall (item : TreeItemCreate.t) (db : database),
    (exists evs,
        writes_since db (snd (create_tree_item item db))
                     ((DELETE_ALL, tree_items db) :: evs) /\
        Forall is_insert evs) /\
    hd_error (tree_items (snd (create_tree_item item db)))
      = Some (TreeNode.mk (first_id db) (TreeItemCreate.name item)
                          (TreeItemCreate.data item) None) /\
    map TreeNode.name (tree_items (snd (create_tree_item item db)))
      = names item /\
    map TreeNode.id (tree_items (snd (create_tree_item item db)))
      = ids_from (first_id db) (Z.to_nat (size item)) /\
    (forall a, engine db = SQLite a ->
               tree_items (snd (create_tree_item item db))
               = rows_of item None (first_id db)).
Proof.
  intros item db.
  destruct (create_tree_item_eq item db) as [_ [Ht [_ Hj]]].
  destruct (rows_under_consecutive (engine db) item None (first_id db))
    as [H1 H2].
  split; [assumption|]. rewrite Ht.
  split; [now rewrite rows_under_eq|].
  split; [apply names_rows_under|].
  split.
  - rewrite H1. f_equal. lia.
  - intros a ->. apply rows_under_sqlite.
Qed.

Lemma replace_tree_clears_then_inserts_witness :
  engine sample_db = SQLite false /\
  tree_items (snd (create_tree_item (leaf "new") sample_db))
  = rows_of (leaf "new") None (first_id sample_db).
Proof.
  split; [reflexivity|].
  exact (proj2 (proj2 (proj2 (proj2
           (replace_tree_clears_then_inserts (leaf "new") sample_db))))
           false eq_refl).
Defined.

End Writes.

(** ** Updates and deletes in sequence *)

Section Sequences.

Lemma fetch_children_set_data (data : string) (item_id x : Z) (tbl : table) :
  fetch_children x (map (set_data data item_id) tbl) = fetch_children x tbl.
Proof.
  unfold fetch_children. induction tbl as [|r tbl IH]; [reflexivity|].
  cbn [map filter].
  destruct (set_data_fields data item_id r) as [E1 [_ E3]]. rewrite E3.
  destruct (opt_Z_eqb (TreeNode.parent_id r) (Some x)); cbn [map];
    now rewrite IH, ?E1.
Qed.

Lemma insert_by_id_set_data (data : string) (item_id : Z) (r : Row) (l : table) :
  insert_by_id (set_data data item_id r) (map (set_data data item_id) l)
  = map (set_data data item_id) (insert_by_id r l).
Proof.
  induction l as [|x l IH]; [reflexivity|].
  cbn [map insert_by_id].
  destruct (set_data_fields data item_id r) as [-> _].
  destruct (set_data_fields data item_id x) as [-> _].
  destruct (TreeNode.id r <? TreeNode.id x); cbn [map]; [reflexivity|].
  now rewrite IH.
Qed.

Lemma order_by_id_set_data (data : string) (item_id : Z) (l : table) :
  order_by_id (map (set_data data item_id) l)
  = map (set_data data item_id) (order_by_id l).
Proof.
  induction l as [|r l IH]; [reflexivity|].
  cbn [map order_by_id]. now rewrite IH, insert_by_id_set_data.
Qed.

Lemma fetch_root_ids_set_data (data : string) (item_id : Z) (tbl : table) :
  fetch_root_ids (map (set_data data item_id) tbl) = fetch_root_ids tbl.
Proof.
  unfold fetch_root_ids.
  assert (E : filter (fun r => is_null (TreeNode.parent_id r))
                     (map (set_data data item_id) tbl)
              = map (set_data data item_id)
                    (filter (fun r => is_null (TreeNode.parent_id r)) tbl)).
  { induction tbl as [|r tbl IH]; [reflexivity|].
    cbn [map filter].
    destruct (set_data_fields data item_id r) as [_ [_ ->]].
    destruct (is_null (TreeNode.parent_id r)); cbn [map]; now rewrite IH. }
  rewrite E, order_by_id_set_data. apply map_id_set_data.
Qed.

Lemma collect_map (A : Type) (g : A -> A) (b1 b2 : Z -> option (option A))
      (ids : list Z) :
  (forall i, b1 i = option_map (option_map g) (b2 i)) ->
  collect b1 ids = option_map (map g) (collect b2 ids).
Proof.
  intros H. induction ids as [|i ids IH]; [reflexivity|].
  cbn [collect]. rewrite H, IH.
  destruct (b2 i) as [[c|]|]; cbn [option_map]; try reflexivity;
    destruct (collect b2 ids); reflexivity.
Qed.

Lemma build_tree_recursive_set_data (data : string) (item_id : Z) (tbl : table)
      (fuel : nat) :
  forall x,
    build_tree_recursive fuel (map (set_data data item_id) tbl) x
    = option_map (option_map (with_data data item_id))
                 (build_tree_recursive fuel tbl x).
Proof.
  induction fuel as [|fuel IH]; intros x; [reflexivity|].
  cbn [build_tree_recursive].
  rewrite fetch_one_by_id_set_data, fetch_children_set_data.
  destruct (fetch_one_by_id x tbl) as [node|]; [|reflexivity].
  cbn [option_map]. rewrite (collect_map _ _ _ _ IH).
  destruct (collect (build_tree_recursive fuel tbl) (fetch_children x tbl))
    as [built|]; [|reflexivity].
  cbn [option_map with_data]. unfold set_data.
  destruct (TreeNode.id node =? item_id) eqn:E;
    cbn [TreeNode.id TreeNode.name TreeNode.data TreeNode.parent_id];
    rewrite ?E; destruct built; reflexivity.
Qed.

(** X12.  PUT then lookup.  After an update of an id that exists, the
    row found under that id has the new data and the name and parent
    it had, and the row found under any other id is the one found
    before. *)
Theorem update_then_lookup :
  forall (item_id : Z) (item : TreeItemUpdate.t) (db : database),
    exists_in (tree_items db) item_id ->
    (exists r0,
        fetch_one_by_id item_id (tree_items db) = Some r0 /\
        fetch_one_by_id item_id
          (tree_items (snd (update_tree_item_data item_id item db)))
        = Some (TreeNode.mk item_id (TreeNode.name r0)
                            (Some (TreeItemUpdate.data item))
                            (TreeNode.parent_id r0))) /\
    (forall x, x <> item_id ->
               fetch_one_by_id x
                 (tree_items (snd (update_tree_item_data item_id item db)))
               = fetch_one_by_id x (tree_items db)).
Proof.
  intros item_id item db Hex.
  destruct (fetch_one_by_id_found Hex) as [r0 Hr0].
  rewrite (@update_tree_item_data_found _ item _ Hex).
  cbn [snd execute_update_data tree_items]. split.
  - exists r0. split; [assumption|].
    rewrite fetch_one_by_id_updated, Hr0. cbn [option_map].
    apply fetch_one_by_id_some in Hr0. destruct Hr0 as [_ Hid].
    unfold set_data. rewrite Hid, Z.eqb_refl. reflexivity.
  - intros x Hx. rewrite fetch_one_by_id_updated.
    destruct (fetch_one_by_id x (tree_items db)) as [r|] eqn:E; [|reflexivity].
    apply fetch_one_by_id_some in E. destruct E as [_ Hid].
    cbn [option_map]. unfold set_data.
    destruct (TreeNode.id r =? item_id) eqn:E'; [|reflexivity].
    apply Z.eqb_eq in E'. congruence.
Qed.

Lemma update_then_lookup_witness :
  fetch_one_by_id 2
    (tree_items (snd (update_tree_item_data 3 (TreeItemUpdate.mk "x") sample_db)))
  = fetch_one_by_id 2 (tree_items sample_db).
Proof.
  refine (proj2 (@update_then_lookup 3 (TreeItemUpdate.mk "x") sample_db
                   sample_db_has_3) 2 _).
  discriminate.
Defined.

(** X13.  PUT then GET /api/tree on SQLite, where an update rewrites
    the row in its place.  After an update of an id that exists, the
    read returns what it returned before with the data of the nodes of
    that id replaced by the new data: no node appears, disappears or
    moves, and the read finishes with the same fuel. *)
Theorem update_then_get_tree :
  forall (item_id : Z) (item : TreeItemUpdate.t) (db : database) (fuel : nat)
         (a : bool),
    engine db = SQLite a ->
    exists_in (tree_items db) item_id ->
    retrieve_tree fuel (tree_items (snd (update_tree_item_data item_id item db)))
    = option_map (map (with_data (TreeItemUpdate.data item) item_id))
                 (retrieve_tree fuel (tree_items db)).
Proof.
  intros item_id item db fuel a He Hex.
  rewrite (@update_tree_item_data_found _ item _ Hex).
  cbn [snd execute_update_data tree_items]. rewrite He. cbn [updated].
  unfold retrieve_tree. rewrite fetch_root_ids_set_data.
  destruct (fetch_root_ids (tree_items db)) as [|i ids]; [reflexivity|].
  apply collect_map. apply build_tree_recursive_set_data.
Qed.

Lemma update_then_get_tree_witness :
  retrieve_tree 3
    (tree_items (snd (update_tree_item_data 3 (TreeItemUpdate.mk "x") sample_db)))
  = option_map (map (with_data "x" 3)) (retrieve_tree 3 (tree_items sample_db)).
Proof.
  exact (@update_then_get_tree 3 (TreeItemUpdate.mk "x") sample_db 3 false
           eq_refl sample_db_has_3).
Defined.

(** X14.  The last update wins.  Two updates of the same id in a row
    leave the table the second alone would leave, whether the id
    exists or not; an update repeated changes nothing more. *)
Theorem last_update_wins :
  forall (item_id : Z) (first second : TreeItemUpdate.t) (db : database),
    tree_items
      (snd (update_tree_item_data item_id second
              (snd (update_tree_item_data item_id first db))))
    = tree_items (snd (update_tree_item_data item_id second db)).
Proof.
  intros item_id first second db.
  destruct (update_tree_item_data_table item_id second
              (snd (update_tree_item_data item_id first db))) as [Ht2 _].
  destruct (update_tree_item_data_table item_id first db) as [Ht1 [He1 _]].
  destruct (update_tree_item_data_table item_id second db) as [Ht _].
  rewrite Ht2, Ht, He1, Ht1.
  destruct (fetch_one_by_id item_id (tree_items db)) as [r0|] eqn:E.
  - rewrite fetch_one_by_id_updated, E. cbn [option_map].
    apply updated_twice.
  - now rewrite E.
Qed.

Lemma self_parent_under_itself (tbl : table) (r : Row) (c : Z) :
  NoDup (map TreeNode.id tbl) ->
  In r tbl ->
  TreeNode.parent_id r = Some (TreeNode.id r) ->
  in_subtree tbl c (TreeNode.id r) -> c = TreeNode.id r.
Proof.
  intros Hnd Hin Hpar H. remember (TreeNode.id r) as x eqn:Ex.
  induction H as [|p r' Hp IH Hin' Hpar']; [reflexivity|].
  assert (r' = r) by (eapply NoDup_ids_same_row; eauto). subst r'.
  rewrite Hpar in Hpar'. inversion Hpar'; subst p. now apply IH.
Qed.

Lemma delete_recursive_self_parent (r : Row) :
  TreeNode.parent_id r = Some (TreeNode.id r) ->
  forall fuel db,
    NoDup (map TreeNode.id (tree_items db)) ->
    In r (tree_items db) ->
    delete_recursive fuel (TreeNode.id r) db = None.
Proof.
  intros Hpar. induction fuel as [|fuel IH]; intros db Hnd Hin; [reflexivity|].
  cbn [delete_recursive].
  assert (Hc : In (TreeNode.id r) (fetch_children (TreeNode.id r) (tree_items db)))
    by (apply in_fetch_children; now exists r).
  assert (Hloop : forall cs d,
             In (TreeNode.id r) cs ->
             NoDup (map TreeNode.id (tree_items d)) ->
             In r (tree_items d) ->
             for_each (delete_recursive fuel) cs d = None).
  { clear Hc. induction cs as [|c cs IHcs]; intros d Hcs Hndd Hind;
      [contradiction|].
    cbn [for_each].
    destruct (Z.eq_dec c (TreeNode.id r)) as [E|E].
    - subst c. now rewrite IH.
    - destruct (delete_recursive fuel c d) as [d1|] eqn:Ed; [|reflexivity].
      apply delete_recursive_deletes in Ed.
      pose proof (subtrees_deleted_rows Ed) as Hrows.
      destruct Ed as [evs [_ [_ [Hrun _]]]].
      apply IHcs.
      + destruct Hcs as [Hcs|Hcs]; [contradiction | assumption].
      + rewrite (childless_deletes_result Hrun). unfold without.
        now apply NoDup_map_filter.
      + apply Hrows. split; [assumption|].
        intros Hsub. apply E.
        eapply self_parent_under_itself; eauto. }
  now rewrite (Hloop _ _ Hc Hnd Hin).
Qed.

(** X15.  A row that names itself as its parent.  On a table with
    unique ids, DELETE of such a row never finishes: whatever the fuel,
    the recursion of [delete_recursive] does not return, and neither
    does [build_tree_recursive] at that id. *)
Theorem self_parent_is_never_finished :
  forall (db : database) (r : Row) (fuel : nat),
    NoDup (map TreeNode.id (tree_items db)) ->
    In r (tree_items db) ->
    TreeNode.parent_id r = Some (TreeNode.id r) ->
    delete_tree_item fuel (TreeNode.id r) db = None /\
    build_tree_recursive fuel (tree_items db) (TreeNode.id r) = None.
Proof.
  intros db r fuel Hnd Hin Hpar. split.
  - unfold delete_tree_item.
    rewrite (@check_exists_found (TreeNode.id r) db) by (now exists r).
    now rewrite delete_recursive_self_parent.
  - clear Hnd. induction fuel as [|fuel IH]; [reflexivity|].
    cbn [build_tree_recursive].
    destruct (@fetch_one_by_id_found (TreeNode.id r) (tree_items db))
      as [row Hrow]; [now exists r|].
    rewrite Hrow.
    assert (Hc : In (TreeNode.id r)
                    (fetch_children (TreeNode.id r) (tree_items db)))
      by (apply in_fetch_children; now exists r).
    destruct (collect _ _) as [built|] eqn:E; [|reflexivity].
    destruct (collect_finished _ _ E _ Hc) as [o Ho]. congruence.
Qed.

Lemma self_parent_is_never_finished_witness :
  delete_tree_item 5 2 (mkDatabase (SQLite false) self_parent_table 3 []) = None /\
  build_tree_recursive 5 self_parent_table 2 = None.
Proof.
  refine (@self_parent_is_never_finished
            (mkDatabase (SQLite false) self_parent_table 3 [])
            (TreeNode.mk 2 "loop" None (Some 2)) 5 _ _ eq_refl).
  - simpl. repeat constructor; simpl; intuition discriminate.
  - simpl. right. left. reflexivity.
Defined.

End Sequences.

(** ** Deletes in sequence *)

Section Deletes.

Lemma delete_tree_item_returned (fuel : nat) (item_id : Z) (db db' : database)
      (v : Z * string) :
  delete_tree_item fuel item_id db = Some (Returned v, db') ->
  subtrees_deleted [item_id] db db'.
Proof.
  unfold delete_tree_item. intros H.
  destruct (check_exists item_id db) as [[x|]|]; [|discriminate|discriminate].
  destruct (delete_recursive fuel item_id db) as [db1|] eqn:E; [|discriminate].
  inversion H; subst. eapply delete_recursive_deletes; eauto.
Qed.

Lemma delete_tree_item_keeps (fuel : nat) (item_id : Z) (db db' : database)
      (out : outcome (Z * string)) :
  delete_tree_item fuel item_id db = Some (out, db') ->
  engine db' = engine db /\ next_id db' = next_id db.
Proof.
  intros H. destruct (delete_tree_item_cases _ _ _ H) as [->|[_ E]];
    [now split|].
  destruct E as [evs [_ [[Hn He] _]]]. now split.
Qed.

(** X16.  DELETE, then anything on the deleted ids.  After a delete
    that succeeded, no row has the deleted id or the id of any row of
    its subtree, and a further DELETE or PUT on such an id changes
    nothing and is answered as an id no row has: with 404 when it is an
    integer of the id column, with 500 when the driver cannot bind
    it. *)
Theorem deleted_ids_are_not_found :
  forall (fuel : nat) (item_id : Z) (db db' : database) (v : Z * string),
    delete_tree_item fuel item_id db = Some (Returned v, db') ->
    forall x, in_subtree (tree_items db) item_id x ->
      ~ exists_in (tree_items db') x /\
      (bindable (engine db') x = true ->
       (forall fuel', delete_tree_item fuel' x db'
                      = Some (HTTPException 404 "Item not found", db')) /\
       (forall item, update_tree_item_data x item db'
                     = (HTTPException 404 "Item not found", db'))) /\
      (bindable (engine db') x = false ->
       (forall fuel', delete_tree_item fuel' x db'
                      = Some (InternalServerError, db')) /\
       (forall item, update_tree_item_data x item db'
                     = (InternalServerError, db'))).
Proof.
  intros fuel item_id db db' v H x Hx.
  apply delete_tree_item_returned in H.
  pose proof (subtrees_deleted_rows H) as Hrows.
  assert (Hgone : ~ exists_in (tree_items db') x).
  { intros [r [Hin Hid]]. apply Hrows in Hin. destruct Hin as [_ Hout].
    apply Hout. now rewrite Hid. }
  split; [assumption|].
  split; intros Hb; split.
  - intros fuel'. rewrite (@delete_tree_item_missing fuel' _ _ Hgone).
    unfold missing. now rewrite Hb.
  - intros item. rewrite (@update_tree_item_data_missing _ item _ Hgone).
    unfold missing. now rewrite Hb.
  - intros fuel'. rewrite (@delete_tree_item_missing fuel' _ _ Hgone).
    unfold missing. now rewrite Hb.
  - intros item. rewrite (@update_tree_item_data_missing _ item _ Hgone).
    unfold missing. now rewrite Hb.
Qed.

Lemma deleted_ids_are_not_found_witness :
  exists db',
    delete_tree_item 3 3 sample_db
    = Some (Returned (3, "Item and children deleted successfully"), db') /\
    ~ exists_in (tree_items db') 4 /\
    delete_tree_item 3 4 db' = Some (HTTPException 404 "Item not found", db').
Proof.
  assert (Hsub : in_subtree (tree_items sample_db) 3 4).
  { apply (@subtree_child (tree_items sample_db) 3 3
                          (TreeNode.mk 4 "c" None (Some 3))).
    - constructor.
    - vm_compute. do 3 right. left. reflexivity.
    - reflexivity. }
  eexists. split; [reflexivity|].
  destruct (@deleted_ids_are_not_found 3 3 sample_db _ _ eq_refl 4 Hsub)
    as [Hgone [H404 _]].
  split; [exact Hgone|].
  exact (proj1 (H404 eq_refl) 3%nat).
Defined.

Lemma rows_of_under_root (item : TreeItemCreate.t) (n : Z) :
  forall r, In r (rows_of item None n) ->
            in_subtree (rows_of item None n) n (TreeNode.id r).
Proof.
  apply forest_induction.
  - apply rows_of_parent_before_child.
  - apply rows_of_parents_exist.
  - intros r Hin Hpar. rewrite rows_of_eq in Hin. destruct Hin as [Hin|Hin].
    + subst r. constructor.
    + pose proof (@rows_of_all_below (kids item) n (n + 1)) as Hb.
      rewrite Forall_forall in Hb.
      destruct (Hb ltac:(lia) r Hin) as [_ [q [Hq _]]]. congruence.
  - intros r rp Hin Hinp Hpar Hrp. eapply subtree_child; eauto.
Qed.

(** X17.  POST /api/tree, then DELETE of the returned [root_id], where
    one is returned (on SQLite; PostgreSQL returns none).  With fuel
    for the number of nodes of the input, the delete succeeds and
    leaves the table empty; GET /api/tree and GET /api/tree/all then
    return the empty list. *)
Theorem replace_then_delete_root_empties :
  forall (item : TreeItemCreate.t) (db : database) (fuel : nat) (root_id : Z),
    snd (fst (create_tree_item item db)) = Some root_id ->
    size item <= Z.of_nat fuel ->
    exists db',
      delete_tree_item fuel root_id (snd (create_tree_item item db))
      = Some (Returned (root_id, "Item and children deleted successfully"), db') /\
      tree_items db' = [] /\
      retrieve_tree fuel (tree_items db') = Some [] /\
      retrieve_all_items (tree_items db') = [].
Proof.
  intros item db fuel root_id Hroot_id Hfuel.
  destruct (create_tree_item_eq item db) as [Hfst [Ht _]].
  rewrite Hfst in Hroot_id. cbn [fst snd] in Hroot_id.
  destruct (engine db) as [a|] eqn:He; [|discriminate].
  cbn [returned] in Hroot_id. injection Hroot_id as Hn.
  rewrite rows_under_sqlite in Ht.
  set (db1 := snd (create_tree_item item db)) in *.
  set (n := first_id db) in *. subst root_id.
  assert (Hroot : exists_in (tree_items db1) n).
  { rewrite Ht, rows_of_eq. eexists. split; [now left | reflexivity]. }
  destruct (@delete_recursive_total (n + size item - 1) fuel n db1)
    as [db' [E _]].
  - rewrite Ht. apply rows_of_parent_before_child.
  - intros r Hin. rewrite Ht in Hin. apply rows_of_ids in Hin. lia.
  - pose proof (size_pos item). lia.
  - exists db'. rewrite (@delete_tree_item_found _ _ _ _ Hroot E).
    split; [reflexivity|].
    apply delete_recursive_deletes in E.
    pose proof (subtrees_deleted_rows E) as Hrows.
    assert (Hempty : tree_items db' = []).
    { destruct (tree_items db') as [|r l] eqn:El; [reflexivity|].
      exfalso. destruct (Hrows r) as [H _].
      destruct (H (or_introl eq_refl)) as [Hin Hout].
      apply Hout. rewrite Ht in *. now apply rows_of_under_root. }
    rewrite Hempty. repeat split.
Qed.

Lemma replace_then_delete_root_empties_witness :
  snd (fst (create_tree_item sample_item empty_db)) = Some 1 /\
  size sample_item <= Z.of_nat 4 /\
  exists db',
    delete_tree_item 4 1 (snd (create_tree_item sample_item empty_db))
    = Some (Returned (1, "Item and children deleted successfully"), db') /\
    tree_items db' = [] /\
    retrieve_tree 4 (tree_items db') = Some [] /\
    retrieve_all_items (tree_items db') = [].
Proof.
  assert (H : size sample_item <= Z.of_nat 4) by (vm_compute; discriminate).
  split; [reflexivity|]. split; [exact H|].
  exact (@replace_then_delete_root_empties sample_item empty_db 4 1 eq_refl H).
Defined.

(** X18.  Where the engine keeps a sequence (PostgreSQL, SQLite under
    [AUTOINCREMENT]), ids are not handed out again after a delete.  A
    delete, whatever its outcome, leaves the sequence where it was; so
    when the sequence was ahead of the ids of the table, a replace that
    follows the delete gives none of its rows the id of a row the table
    held before the delete, deleted or not. *)
Theorem ids_not_reused_after_delete :
  forall (fuel : nat) (item_id : Z) (db db1 : database)
         (out : outcome (Z * string)) (item : TreeItemCreate.t),
    engine db <> SQLite false ->
    ids_below_next db ->
    delete_tree_item fuel item_id db = Some (out, db1) ->
    next_id db1 = next_id db /\
    forall r r',
      In r (tree_items db) ->
      In r' (tree_items (snd (create_tree_item item db1))) ->
      TreeNode.id r' <> TreeNode.id r.
Proof.
  intros fuel item_id db db1 out item Hseq Hbelow Hd.
  destruct (delete_tree_item_keeps _ _ _ Hd) as [He Hn].
  split; [assumption|].
  intros r r' Hr Hr'.
  destruct (create_tree_item_eq item db1) as [_ [Ht _]].
  rewrite Ht in Hr'. apply rows_under_ids in Hr'.
  specialize (Hbelow r Hr).
  assert (Hfirst : next_id db <= first_id db1).
  { unfold first_id. rewrite He, Hn.
    destruct (engine db) as [[|]|]; [lia | congruence | lia]. }
  lia.
Qed.

Lemma autoincrement_db_ids_below_next : ids_below_next autoincrement_db.
Proof.
  intros r Hin. vm_compute in Hin.
  destruct Hin as [E|[E|[E|[E|[]]]]]; subst r; reflexivity.
Defined.

Lemma ids_not_reused_after_delete_witness :
  exists db1,
    delete_tree_item 3 3 autoincrement_db
    = Some (Returned (3, "Item and children deleted successfully"), db1) /\
    next_id db1 = next_id autoincrement_db /\
    map TreeNode.id (tree_items (snd (create_tree_item (leaf "new") db1))) = [5].
Proof.
  eexists. split; [reflexivity|]. split; [|reflexivity].
  refine (proj1 (@ids_not_reused_after_delete 3 3 autoincrement_db _ _
                   (leaf "new") _ autoincrement_db_ids_below_next eq_refl)).
  discriminate.
Defined.

(** X23.  The table [main.py] creates on SQLite has no sequence: the
    id of a new row is one more than the largest in the table, and a
    replace, which empties the table first, numbers its rows from 1
    again, whatever the ids handed out before.  The [root_id] it
    returns is 1, and every row of before whose id is at most the
    number of nodes of the input sees its id given to a new row. *)
Theorem plain_sqlite_numbers_from_one :
  forall (item : TreeItemCreate.t) (db : database),
    engine db = SQLite false ->
    snd (fst (create_tree_item item db)) = Some 1 /\
    map TreeNode.id (tree_items (snd (create_tree_item item db)))
    = ids_from 1 (Z.to_nat (size item)) /\
    forall r, In r (tree_items db) ->
              1 <= TreeNode.id r <= size item ->
              exists r', In r' (tree_items (snd (create_tree_item item db))) /\
                         TreeNode.id r' = TreeNode.id r.
Proof.
  intros item db He.
  destruct (create_tree_item_eq item db) as [Hfst [Ht _]].
  destruct (rows_under_consecutive (engine db) item None (first_id db))
    as [H1 H2].
  assert (Hone : first_id db = 1) by (unfold first_id; now rewrite He).
  rewrite Hfst, Ht, H1, Hone, He. cbn [fst snd returned].
  split; [reflexivity|].
  assert (Hlen : List.length (rows_under (SQLite false) item None 1)
                 = Z.to_nat (size item)).
  { rewrite He, Hone in H2. lia. }
  rewrite Hlen. split; [reflexivity|].
  intros r _ Hr.
  assert (Hin : In (TreeNode.id r)
                   (map TreeNode.id (rows_under (SQLite false) item None 1))).
  { rewrite He, Hone in H1. rewrite H1, Hlen. apply in_ids_from. lia. }
  apply in_map_iff in Hin. destruct Hin as [r' [E Hr']]. now exists r'.
Qed.

Lemma plain_sqlite_numbers_from_one_witness :
  engine sample_db = SQLite false /\
  snd (fst (create_tree_item (leaf "new") sample_db)) = Some 1 /\
  In (TreeNode.mk 1 "root" None None) (tree_items sample_db) /\
  In (TreeNode.mk 1 "new" None None)
     (tree_items (snd (create_tree_item (leaf "new") sample_db))).
Proof.
  split; [reflexivity|].
  split; [exact (proj1 (@plain_sqlite_numbers_from_one (leaf "new") sample_db
                          eq_refl))|].
  split; vm_compute; left; reflexivity.
Defined.

Lemma sample_db_unique_ids : NoDup (map TreeNode.id (tree_items sample_db)).
Proof. vm_compute. repeat constructor; simpl; intuition discriminate. Defined.

Lemma sample_db_parents_exist : parents_exist (tree_items sample_db).
Proof.
  intros r p Hin Hpar. vm_compute in Hin.
  destruct Hin as [E|[E|[E|[E|[]]]]]; subst r; vm_compute in Hpar;
    inversion Hpar; subst p.
  - exists (TreeNode.mk 1 "root" None None). vm_compute. auto.
  - exists (TreeNode.mk 1 "root" None None). vm_compute. auto.
  - exists (TreeNode.mk 3 "b" None (Some 1)). vm_compute. auto.
Defined.

Lemma retrieve_tree_shows_every_row_witness :
  exists n, forall fuel, (n <= fuel)%nat ->
    exists trees,
      retrieve_tree fuel (tree_items sample_db) = Some trees /\
      forall r, In r (tree_items sample_db) ->
                exists t u, In t trees /\ occurs_in t u /\ shows u r.
Proof.
  exact (@retrieve_tree_shows_every_row (tree_items sample_db)
           sample_db_unique_ids sample_db_parents_exist
           sample_db_parent_before_child).
Defined.

End Deletes.

(** ** Empty children lists, and the physical order of reached tables *)

Section Order.

Lemma insert_all_same_shape (n : option Z) (la : list TreeItemCreate.t) :
  Forall (fun a => forall b p db,
              shape_of_item a = shape_of_item b ->
              insert_tree_recursive a p db = insert_tree_recursive b p db) la ->
  forall lb db,
    map shape_of_item la = map shape_of_item lb ->
    insert_all la n db = insert_all lb n db.
Proof.
  induction 1 as [|a la Ha Hla IH]; intros lb db E.
  - destruct lb; [reflexivity | discriminate].
  - destruct lb as [|b lb]; [discriminate|].
    cbn [map] in E. injection E as Eab El.
    cbn [insert_all]. rewrite (Ha b n db Eab). now apply IH.
Qed.

Lemma shape_of_item_eq (item : TreeItemCreate.t) :
  shape_of_item item
  = Shape (TreeItemCreate.name item) (TreeItemCreate.data item)
          (map shape_of_item (kids item)).
Proof. destruct item as [name data [l|]]; reflexivity. Qed.

(** X19.  The insert does not tell an absent [children] from an empty
    one, at any depth: two inputs with the same names, data and
    children in the same order are inserted with the same returned id
    and leave the same database, journal included. *)
Theorem insert_depends_on_shape_only :
  forall (a b : TreeItemCreate.t) (parent_id : option Z) (db : database),
    shape_of_item a = shape_of_item b ->
    insert_tree_recursive a parent_id db = insert_tree_recursive b parent_id db.
Proof.
  induction a as [a IH] using item_induction. intros b parent_id db E.
  rewrite !insert_tree_recursive_eq.
  rewrite (shape_of_item_eq a), (shape_of_item_eq b) in E.
  injection E as En Ed Ek. rewrite En, Ed. f_equal.
  now apply insert_all_same_shape.
Qed.

Lemma insert_depends_on_shape_only_witness :
  insert_tree_recursive (TreeItemCreate.mk "r" None (Some [])) None empty_db
  = insert_tree_recursive (TreeItemCreate.mk "r" None None) None empty_db.
Proof.
  exact (@insert_depends_on_shape_only
           (TreeItemCreate.mk "r" None (Some []))
           (TreeItemCreate.mk "r" None None) None empty_db eq_refl).
Defined.

Lemma StronglySorted_map_filter (g : Row -> bool) (l : table) :
  StronglySorted Z.lt (map TreeNode.id l) ->
  StronglySorted Z.lt (map TreeNode.id (filter g l)).
Proof.
  induction l as [|r l IH]; cbn [map filter]; intros H; [constructor|].
  inversion H as [|? ? Hs Hall]; subst.
  destruct (g r); [|now apply IH].
  cbn [map]. constructor; [now apply IH|].
  rewrite Forall_forall in *. intros x Hx. apply Hall.
  apply in_map_iff in Hx. destruct Hx as [r' [E Hr']].
  apply filter_In in Hr'. apply in_map_iff. exists r'. tauto.
Qed.

(** On PostgreSQL no row the service has inserted has a parent. *)
Lemma reachable_postgresql_flat (db : database) :
  reachable db ->
  engine db = PostgreSQL ->
  forall r, In r (tree_items db) -> TreeNode.parent_id r = None.
Proof.
  induction 1 as [e | db item Hr IH | db item_id item Hr IH
                  | db fuel item_id out db' Hr IH Hd].
  - intros _ r [].
  - destruct (create_tree_item_eq item db) as [_ [Ht [[He _] _]]].
    rewrite He, Ht. intros Hpg r Hin. rewrite Hpg in Hin.
    now destruct (rows_under_postgresql _ _ _ _ Hin).
  - destruct (update_tree_item_data_table item_id item db) as [Ht [He _]].
    rewrite He, Ht. intros Hpg r Hin.
    destruct (fetch_one_by_id item_id (tree_items db)); [|now apply IH].
    apply in_updated in Hin. destruct Hin as [r0 [Hin E]]. subst r.
    destruct (set_data_fields (TreeItemUpdate.data item) item_id r0)
      as [_ [_ ->]].
    now apply IH.
  - destruct (delete_tree_item_cases _ _ _ Hd) as [->|[_ E]]; [assumption|].
    pose proof (subtrees_deleted_incl E) as Hincl.
    destruct E as [evs [_ [[_ He] _]]]. rewrite He.
    intros Hpg r Hin. apply IH; [assumption|]. now apply Hincl.
Qed.

(** X20.  SQLite appends on insert and rewrites in place on update:
    there every table the service reaches through its own routes is
    physically in strictly ascending id order.  On every engine the
    children query, although it has no [ORDER BY], returns the ids in
    ascending order on the tables the service reaches: on SQLite
    because the table is in that order, on PostgreSQL, where an update
    moves the row, because no row the service inserted there has a
    parent. *)
Theorem reachable_tables_are_in_id_order :
  forall db : database,
    reachable db ->
    (forall a, engine db = SQLite a ->
               StronglySorted Z.lt (map TreeNode.id (tree_items db))) /\
    forall node_id, StronglySorted Z.lt (fetch_children node_id (tree_items db)).
Proof.
  intros db Hr.
  assert (H : forall a, engine db = SQLite a ->
                        StronglySorted Z.lt (map TreeNode.id (tree_items db))).
  { induction Hr as [e | db item Hr IH | db item_id item Hr IH
                     | db fuel item_id out db' Hr IH Hd]; intros a Ha.
    - constructor.
    - destruct (create_tree_item_eq item db) as [_ [Ht _]]. rewrite Ht.
      destruct (rows_under_consecutive (engine db) item None (first_id db))
        as [Hids _].
      rewrite Hids. apply StronglySorted_ids_from.
    - destruct (update_tree_item_data_table item_id item db) as [Ht [He _]].
      rewrite He in Ha. rewrite Ht.
      destruct (fetch_one_by_id item_id (tree_items db)); [|now apply (IH a)].
      rewrite Ha. cbn [updated]. rewrite map_id_set_data. now apply (IH a).
    - destruct (delete_tree_item_cases _ _ _ Hd) as [->|[_ E]];
        [now apply (IH a)|].
      destruct E as [evs [_ [[_ He] [Hrun _]]]]. rewrite He in Ha.
      rewrite (childless_deletes_result Hrun). unfold without.
      apply StronglySorted_map_filter. now apply (IH a). }
  split; [assumption|].
  intros node_id. destruct (engine db) as [a|] eqn:He.
  - unfold fetch_children. apply StronglySorted_map_filter. now apply (H a).
  - destruct (fetch_children node_id (tree_items db)) as [|c cs] eqn:Ec;
      [constructor|].
    exfalso.
    assert (Hc : In c (fetch_children node_id (tree_items db)))
      by (rewrite Ec; now left).
    apply in_fetch_children in Hc. destruct Hc as [r [Hin [Hpar _]]].
    rewrite (reachable_postgresql_flat Hr He r Hin) in Hpar. discriminate.
Qed.

Lemma reachable_tables_are_in_id_order_witness :
  engine sample_db = SQLite false /\
  StronglySorted Z.lt (map TreeNode.id (tree_items sample_db)).
Proof.
  split; [reflexivity|].
  exact (proj1 (reachable_tables_are_in_id_order sample_db_reachable)
               false eq_refl).
Defined.

End Order.
